(** * Keplerian planet positions: a model of [planetPosition.js]

    The three functions of the library, [computeEclipticCoordinates],
    [convertToICRF] and [solveKeplerEquation], and the two element tables,
    embedded over the real numbers.

    Number model.  A JavaScript Number is read as the real number it
    denotes: decimal literals are exact rationals, [+ - *] are the field
    operations, [Math.PI], [Math.sin], [Math.cos] are [PI], [sin], [cos].
    Rounding is not modelled.  The operations that leave the reals in
    JavaScript return [None] here: a division by zero (JavaScript:
    [Infinity] or [NaN]), a square root of a negative number ([NaN]), a
    read outside an array ([undefined], then [NaN] or a [TypeError]).  Every such value poisons all later arithmetic of the
    function that meets it, so [None] for the whole result is what
    "the result is not a triple of real numbers" comes to.

    Limit of the model.  Both tables hold a string at index 0 of a row and
    numbers at the indices 1 to 16.  A string at one of the indices 1 to
    16 would be coerced by JavaScript (a numeral string to its number, [+]
    to a concatenation); that coercion is not modelled, such a cell is
    read as no number, and no statement below draws a conclusion about the
    program from it. *)

From Stdlib Require Import Reals Lra Psatz ZArith List String Bool Arith Lia.
From Stdlib Require Import Zfloor RNsatz.
Import ListNotations.

Local Open Scope R_scope.

(** ** JavaScript numeric primitives *)

Module JS.

(** A small error monad for values that may fail to be real numbers. *)
Definition bind {A B : Type} (m : option A) (k : A -> option B) : option B :=
  match m with
  | Some a => k a
  | None => None
  end.

(** [x < y] and [x > y] as tests. *)
Definition ltb (x y : R) : bool := if Rlt_dec x y then true else false.
Definition gtb (x y : R) : bool := ltb y x.

(** [x / y]; not a real number when [y] is zero. *)
Definition div (x y : R) : option R :=
  if Req_dec_T y 0 then None else Some (x / y).

(** [Math.sqrt(x)]; [NaN] below zero. *)
Definition sqrt (x : R) : option R :=
  if Rlt_dec x 0 then None else Some (R_sqrt.sqrt x).

(** Rounding of a real towards zero. *)
Definition trunc (x : R) : Z := if Rlt_dec x 0 then Zceil x else Zfloor x.

(** [n % d] for a non-zero [d]: the remainder of the division truncated
    towards zero, which takes the sign of the dividend [n]. *)
Definition rem (n d : R) : R := n - d * IZR (trunc (n / d)).

(** [Math.pow(x, 2)]. *)
Definition pow2 (x : R) : R := x ^ 2.

End JS.

Notation "x <- m ;; k" := (JS.bind m (fun x => k))
  (at level 61, m at next level, right associativity).

(** ** Arrays *)

(** An element of a table row: the body's name or a number. *)
Inductive cell : Type :=
| Str (s : string)
| Num (x : R).

Definition row : Type := list cell.
Definition table : Type := list row.

(** [t[p][k]] read as a number.  A string there is not coerced (see the
    limit of the model above). *)
Definition elem (t : table) (p k : nat) : option R :=
  match nth_error t p with
  | Some r =>
      match nth_error r k with
      | Some (Num x) => Some x
      | _ => None
      end
  | None => None
  end.

(** [v[k]] on an array of numbers. *)
Definition at_index (v : list R) (k : nat) : option R := nth_error v k.

(** ** solveKeplerEquation *)

Definition tolerance : R := 10e-6.

Definition deg2rad : R := PI / 180.

(** The [for] loop of [solveKeplerEquation].  [i], [E2] and [difE1E2] are
    the variables the loop writes; [E1] is read by the body and never
    assigned in it.  [fuel] bounds the recursion; the loop itself stops on
    [i < 1000].  The result is the pair of the final [i] and [E2].  A zero
    denominator makes [dE] and [E2] infinite or [NaN], and since the body
    reads only [E1], which stays as it is, every later iteration gives the
    same: the value returned is then not a real number, [None]. *)
Fixpoint kepler_loop (fuel : nat) (M e e1 E1 : R)
    (i : nat) (E2 difE1E2 : R) : option (nat * R) :=
  match fuel with
  | O => Some (i, E2)
  | S fuel' =>
      if (i <? 1000)%nat && JS.gtb difE1E2 tolerance then
        let dM := M - (E1 - e1 * sin (deg2rad * E1)) in
        dE <- JS.div dM (1 - e * cos (deg2rad * E1)) ;;
        let E2' := E1 + dE in
        let difE1E2' := Rabs (E1 - E2') in
        kepler_loop fuel' M e e1 E1 (S i) E2' difE1E2'
      else Some (i, E2)
  end.

(** The function up to its [return], with the iteration count kept. *)
Definition solveKeplerEquation_run (M e : R) : option (nat * R) :=
  let e1 := 180 / PI * e in
  let E0 := M + e1 * sin (M * deg2rad) in
  let E1 := E0 in
  let E2 := 0 in
  let difE1E2 := 1 in
  kepler_loop 1000 M e e1 E1 0 E2 difE1E2.

Definition solveKeplerEquation (M e : R) : option R :=
  r <- solveKeplerEquation_run M e ;; Some (snd r).

(** ** computeEclipticCoordinates *)

(** The evaluated elements of one call, in the order the function
    computes them. *)
Record elements : Type := mkElements {
  el_T : R;   (* centuries past J2000.0 *)
  el_a : R;   (* semi-major axis *)
  el_e : R;   (* eccentricity *)
  el_I : R;   (* inclination *)
  el_L : R;   (* mean longitude *)
  el_W : R;   (* longitude of perihelion *)
  el_O : R;   (* longitude of ascending node *)
  el_w : R;   (* argument of perihelion *)
  el_M : R    (* mean anomaly, before the modulus *)
}.

(** Julian Ephemeris Date of a UNIX time in milliseconds. *)
Definition julianDate (UNIXMilliTime : R) : R :=
  UNIXMilliTime / 1000 / 86400 + 2440587.5.

(** Centuries past J2000.0. *)
Definition centuries (UNIXMilliTime : R) : R :=
  (julianDate UNIXMilliTime - 2451545) / 36525.

(** Lines 11 to 45: the elements and the mean anomaly as first computed. *)
Definition keplerianElements (keplerianElementsTable : table)
    (planetIndex : nat) (UNIXMilliTime : R) : option elements :=
  let T := centuries UNIXMilliTime in
  a0 <- elem keplerianElementsTable planetIndex 1 ;;
  at_ <- elem keplerianElementsTable planetIndex 7 ;;
  let a := a0 + at_ * T in
  e0 <- elem keplerianElementsTable planetIndex 2 ;;
  et <- elem keplerianElementsTable planetIndex 8 ;;
  let e := e0 + et * T in
  I0 <- elem keplerianElementsTable planetIndex 3 ;;
  It <- elem keplerianElementsTable planetIndex 9 ;;
  let I := I0 + It * T in
  L0 <- elem keplerianElementsTable planetIndex 4 ;;
  Lt <- elem keplerianElementsTable planetIndex 10 ;;
  let L := L0 + Lt * T in
  W0 <- elem keplerianElementsTable planetIndex 5 ;;
  Wt <- elem keplerianElementsTable planetIndex 11 ;;
  let W := W0 + Wt * T in
  O0 <- elem keplerianElementsTable planetIndex 6 ;;
  Ot <- elem keplerianElementsTable planetIndex 12 ;;
  let O := O0 + Ot * T in
  b <- elem keplerianElementsTable planetIndex 13 ;;
  c <- elem keplerianElementsTable planetIndex 14 ;;
  s <- elem keplerianElementsTable planetIndex 15 ;;
  f <- elem keplerianElementsTable planetIndex 16 ;;
  let w := W - O in
  let M := L - W + b * JS.pow2 T + c * cos (deg2rad * f * T)
           + s * sin (deg2rad * f * T) in
  Some (mkElements T a e I L W O w M).

(** Line 46: [if (M < -180 || M > 180) M = M % 360]. *)
Definition normalizeMeanAnomaly (M : R) : R :=
  if JS.ltb M (-180) || JS.gtb M 180 then JS.rem M 360 else M.

(** Lines 52 to 54: position in the orbital plane, [z1 = 0]. *)
Definition orbitalPlane (a e E : R) : option (R * R) :=
  let x1 := a * (cos (deg2rad * E) - e) in
  r <- JS.sqrt (1 - e * e) ;;
  let y1 := a * r * sin (deg2rad * E) in
  Some (x1, y1).

(** Lines 57 to 70: the rotation into the J2000 ecliptic plane. *)
Definition eclipticRotation (w O I x1 y1 : R) : list R :=
  let cosw := cos (deg2rad * w) in
  let sinw := sin (deg2rad * w) in
  let cosO := cos (deg2rad * O) in
  let sinO := sin (deg2rad * O) in
  let cosI := cos (deg2rad * I) in
  let sinI := sin (deg2rad * I) in
  let Xecl := (cosw * cosO - sinw * sinO * cosI) * x1
              + (- sinw * cosO - cosw * sinO * cosI) * y1 in
  let Yecl := (cosw * sinO + sinw * cosO * cosI) * x1
              + (- sinw * sinO + cosw * cosO * cosI) * y1 in
  let Zecl := (sinw * sinI) * x1 + (cosw * sinI) * y1 in
  [Xecl; Yecl; Zecl].

Definition computeEclipticCoordinates (keplerianElementsTable : table)
    (planetIndex : nat) (UNIXMilliTime : R) : option (list R) :=
  el <- keplerianElements keplerianElementsTable planetIndex UNIXMilliTime ;;
  let M := normalizeMeanAnomaly (el_M el) in
  E <- solveKeplerEquation M (el_e el) ;;
  xy <- orbitalPlane (el_a el) (el_e el) E ;;
  Some (eclipticRotation (el_w el) (el_O el) (el_I el) (fst xy) (snd xy)).

(** ** convertToICRF *)

Definition obliquity : R := 23.43928.

Definition convertToICRF (EclipticCoordinates : list R) : option (list R) :=
  let E := obliquity in
  let cosE := cos (deg2rad * E) in
  let sinE := sin (deg2rad * E) in
  Xeq <- at_index EclipticCoordinates 0 ;;
  y <- at_index EclipticCoordinates 1 ;;
  z <- at_index EclipticCoordinates 2 ;;
  let Yeq := cosE * y - sinE * z in
  let Zeq := sinE * y + cosE * z in
  Some [Xeq; Yeq; Zeq].

(** Euclidean length of an array of numbers. *)
Definition norm (v : list R) : R :=
  R_sqrt.sqrt (fold_right (fun x acc => x * x + acc) 0 v).

(** ** The element tables *)

(** Valid for 1800 AD - 2050 AD. *)
Definition keplerianElements2050 : table := [
  [Str "Mercury"; Num 0.38709927; Num 0.20563593; Num 7.00497902; Num 252.25032350; Num 77.45779628; Num 48.33076593; Num 0.00000037; Num 0.00001906; Num (-0.00594749); Num 149472.67411175; Num 0.16047689; Num (-0.12534081); Num 0; Num 0; Num 0; Num 0];
  [Str "Venus"; Num 0.72333566; Num 0.00677672; Num 3.39467605; Num 181.97909950; Num 131.60246718; Num 76.67984255; Num 0.00000390; Num (-0.00004107); Num (-0.00078890); Num 58517.81538729; Num 0.00268329; Num (-0.27769418); Num 0; Num 0; Num 0; Num 0];
  [Str "EM Bary"; Num 1.00000261; Num 0.01671123; Num (-0.00001531); Num 100.46457166; Num 102.93768193; Num 0.0; Num 0.00000562; Num (-0.00004392); Num (-0.01294668); Num 35999.37244981; Num 0.32327364; Num 0.0; Num 0; Num 0; Num 0; Num 0];
  [Str "Mars"; Num 1.52371034; Num 0.09339410; Num 1.84969142; Num (-4.55343205); Num (-23.94362959); Num 49.55953891; Num 0.00001847; Num (-0.00007882); Num (-0.00813131); Num 19140.30268499; Num 0.44441088; Num (-0.29257343); Num 0; Num 0; Num 0; Num 0];
  [Str "Jupiter"; Num 5.20288700; Num 0.04838624; Num 1.30439695; Num 34.39644051; Num 14.72847983; Num 100.47390909; Num (-0.00011607); Num (-0.00013253); Num (-0.00183714); Num 3034.74612775; Num 0.21252668; Num 0.20469106; Num 0; Num 0; Num 0; Num 0];
  [Str "Saturn"; Num 9.53667594; Num 0.05386179; Num 2.48599187; Num 49.95424423; Num 92.59887831; Num 113.66242448; Num (-0.00125060); Num (-0.00050991); Num 0.00193609; Num 1222.49362201; Num (-0.41897216); Num (-0.28867794); Num 0; Num 0; Num 0; Num 0];
  [Str "Uranus"; Num 19.18916464; Num 0.04725744; Num 0.77263783; Num 313.23810451; Num 170.95427630; Num 74.01692503; Num (-0.00196176); Num (-0.00004397); Num (-0.00242939); Num 428.48202785; Num 0.40805281; Num 0.04240589; Num 0; Num 0; Num 0; Num 0];
  [Str "Neptune"; Num 30.06992276; Num 0.00859048; Num 1.77004347; Num (-55.12002969); Num 44.96476227; Num 131.78422574; Num 0.00026291; Num 0.00005105; Num 0.00035372; Num 218.45945325; Num (-0.32241464); Num (-0.00508664); Num 0; Num 0; Num 0; Num 0];
  [Str "Pluto"; Num 39.48211675; Num 0.24882730; Num 17.14001206; Num 238.92903833; Num 224.06891629; Num 110.30393684; Num (-0.00031596); Num 0.00005170; Num 0.00004818; Num 145.20780515; Num (-0.04062942); Num (-0.01183482); Num 0; Num 0; Num 0; Num 0]
]%string.

(** Valid for 3000 BC - 3000 AD. *)
Definition keplerianElements3000 : table := [
  [Str "Mercury"; Num 0.38709843; Num 0.20563661; Num 7.00559432; Num 252.25166724; Num 77.45771895; Num 48.33961819; Num 0.00000000; Num 0.00002123; Num (-0.00590158); Num 149472.67486623; Num 0.15940013; Num (-0.12214182); Num 0; Num 0; Num 0; Num 0];
  [Str "Venus"; Num 0.72332102; Num 0.00676399; Num 3.39777545; Num 181.97970850; Num 131.76755713; Num 76.67261496; Num (-0.00000026); Num (-0.00005107); Num 0.00043494; Num 58517.81560260; Num 0.05679648; Num (-0.27274174); Num 0; Num 0; Num 0; Num 0];
  [Str "EM Bary"; Num 1.00000018; Num 0.01673163; Num (-0.00054346); Num 100.46691572; Num 102.93005885; Num (-5.11260389); Num (-0.00000003); Num (-0.00003661); Num (-0.01337178); Num 35999.37306329; Num 0.31795260; Num (-0.24123856); Num 0; Num 0; Num 0; Num 0];
  [Str "Mars"; Num 1.52371243; Num 0.09336511; Num 1.85181869; Num (-4.56813164); Num (-23.91744784); Num 49.71320984; Num 0.00000097; Num 0.00009149; Num (-0.00724757); Num 19140.29934243; Num 0.45223625; Num (-0.26852431); Num 0; Num 0; Num 0; Num 0];
  [Str "Jupiter"; Num 5.20248019; Num 0.04853590; Num 1.29861416; Num 34.33479152; Num 14.27495244; Num 100.29282654; Num (-0.00002864); Num 0.00018026; Num (-0.00322699); Num 3034.90371757; Num 0.18199196; Num 0.13024619; Num (-0.00012452); Num 0.06064060; Num (-0.35635438); Num 38.35125000];
  [Str "Saturn"; Num 9.54149883; Num 0.05550825; Num 2.49424102; Num 50.07571329; Num 92.86136063; Num 113.63998702; Num (-0.00003065); Num (-0.00032044); Num 0.00451969; Num 1222.11494724; Num 0.54179478; Num (-0.25015002); Num 0.00025899; Num (-0.13434469); Num 0.87320147; Num 38.35125000];
  [Str "Uranus"; Num 19.18797948; Num 0.04685740; Num 0.77298127; Num 314.20276625; Num 172.43404441; Num 73.96250215; Num (-0.00020455); Num (-0.00001550); Num (-0.00180155); Num 428.49512595; Num 0.09266985; Num 0.05739699; Num 0.00058331; Num (-0.97731848); Num 0.17689245; Num 7.67025000];
  [Str "Neptune"; Num 30.06952752; Num 0.00895439; Num 1.77005520; Num 304.22289287; Num 46.68158724; Num 131.78635853; Num 0.00006447; Num 0.00000818; Num 0.00022400; Num 218.46515314; Num 0.01009938; Num (-0.00606302); Num (-0.00041348); Num 0.68346318; Num (-0.10162547); Num 7.67025000];
  [Str "Pluto"; Num 39.48686035; Num 0.24885238; Num 17.14104260; Num 238.96535011; Num 224.09702598; Num 110.30167986; Num 0.00449751; Num 0.00006016; Num 0.00000501; Num 145.18042903; Num (-0.00968827); Num (-0.00809981); Num (-0.01262724); Num 0; Num 0; Num 0]
]%string.

(** ** Quantities the statements are written with *)

(** A table row as the tables write it: the name, the six elements at
    J2000, their six rates per century, and [b], [c], [s], [f]. *)
Definition elementRow (name : string)
    (a0 e0 I0 L0 W0 O0 at_ et It Lt Wt Ot b c s f : R) : row :=
  [Str name; Num a0; Num e0; Num I0; Num L0; Num W0; Num O0;
   Num at_; Num et; Num It; Num Lt; Num Wt; Num Ot;
   Num b; Num c; Num s; Num f].

(** The initial guess [E0]. *)
Definition initialGuess (M e : R) : R :=
  M + 180 / PI * e * sin (M * deg2rad).

(** One Newton correction of the iterate [E] for the equation
    [E - e1 sin E = M], in degrees. *)
Definition newtonStep (M e E : R) : option R :=
  dE <- JS.div (M - (E - 180 / PI * e * sin (deg2rad * E)))
               (1 - e * cos (deg2rad * E)) ;;
  Some (E + dE).

(** The iteration as the specification words it, for comparison with the
    code: every correction is evaluated at the current iterate [E], which
    is then replaced by [E + dE]; the iteration stops when the last two
    iterates differ by at most [tolerance], or after [n] corrections. *)
Fixpoint spec_newtonRaphson_iter (n : nat) (M e E dif : R) : option R :=
  match n with
  | O => Some E
  | S n' =>
      if JS.gtb dif tolerance then
        E' <- newtonStep M e E ;;
        spec_newtonRaphson_iter n' M e E' (Rabs (E - E'))
      else Some E
  end.

Definition spec_newtonRaphson (M e : R) : option R :=
  spec_newtonRaphson_iter 1000 M e (initialGuess M e) 1.

(** *** The run of the solver at M = 90 degrees, e = 1/4 *)

(** The eccentric anomaly the solver returns, less 90 degrees, in
    radians. *)
Definition quarter_delta : R :=
  1 / 4 - 1 / 4 * (1 - cos (1 / 4)) / (1 + 1 / 4 * sin (1 / 4)).

(** The value the first correction gives. *)
Definition quarter_E : R := 90 + 180 / PI * quarter_delta.

(** Iterates near 90 degrees, by their offset in radians. *)
Definition of_offset (x : R) : R := 90 + 180 / PI * x.

(** The Newton map of [x - cos x / 4] and its residual. *)
Definition quarter_f (x : R) : R := x - 1 / 4 * cos x.
Definition quarter_N (x : R) : R := x - quarter_f x / (1 + 1 / 4 * sin x).

(** What a value [E] leaves of Kepler's equation for [M] and [e], in
    degrees. *)
Definition keplerResidual (M e E : R) : R :=
  E - 180 / PI * e * sin (E * PI / 180) - M.

(** A bound on the first Newton correction, in radians, and the bound on
    the residual that follows from it, in degrees. *)
Definition correctionBound (e : R) : R := e * e / (1 - e).
Definition residualBound (e : R) : R :=
  180 / PI * e
  * (correctionBound e ^ 2 / 2 + correctionBound e ^ 3 / 6).

(** * Properties *)

(** ** The primitives *)

Section Primitives.

Lemma ltb_true (x y : R) : x < y -> JS.ltb x y = true.
Proof. intros H. unfold JS.ltb. destruct (Rlt_dec x y); [reflexivity | contradiction]. Qed.

Lemma ltb_false (x y : R) : y <= x -> JS.ltb x y = false.
Proof. intros H. unfold JS.ltb. destruct (Rlt_dec x y); [lra | reflexivity]. Qed.

Lemma gtb_true (x y : R) : y < x -> JS.gtb x y = true.
Proof. apply ltb_true. Qed.

Lemma gtb_false (x y : R) : x <= y -> JS.gtb x y = false.
Proof. apply ltb_false. Qed.

Lemma div_some (x y : R) : y <> 0 -> JS.div x y = Some (x / y).
Proof. intros H. unfold JS.div. destruct (Req_dec_T y 0); [contradiction | reflexivity]. Qed.

Lemma tolerance_value : tolerance = 1 / 100000.
Proof. unfold tolerance. lra. Qed.

End Primitives.

(** ** The loop of solveKeplerEquation *)

Section KeplerLoop.

Variables M e e1 E1 : R.

(** The two quantities the loop body computes from [E1]. *)
Let dM : R := M - (E1 - e1 * sin (deg2rad * E1)).
Let den : R := 1 - e * cos (deg2rad * E1).

(** One unfolding of the loop when its test holds. *)
Lemma kepler_loop_enter (fuel i : nat) (E2 dif : R) :
  (i < 1000)%nat -> tolerance < dif ->
  kepler_loop (S fuel) M e e1 E1 i E2 dif =
    (dE <- JS.div dM den ;;
     kepler_loop fuel M e e1 E1 (S i) (E1 + dE) (Rabs (E1 - (E1 + dE)))).
Proof.
  intros Hi Hd. simpl.
  apply Nat.ltb_lt in Hi. rewrite Hi, (gtb_true _ _ Hd). reflexivity.
Qed.

(** Once [E2] holds [E1 + dE], no further iteration changes it: the body
    reads [E1] only, and [E1] is still the initial guess. *)
Lemma kepler_loop_fixed (dE : R) :
  JS.div dM den = Some dE ->
  forall (fuel i : nat),
  exists k, kepler_loop fuel M e e1 E1 i (E1 + dE) (Rabs (E1 - (E1 + dE)))
            = Some (k, E1 + dE).
Proof.
  intros Hdiv. induction fuel as [| fuel IH]; intros i.
  - exists i. reflexivity.
  - simpl. destruct ((i <? 1000)%nat && JS.gtb _ tolerance).
    + fold dM den. rewrite Hdiv. simpl. apply IH.
    + exists i. reflexivity.
Qed.

(** The counter never passes the cap. *)
Lemma kepler_loop_count (fuel : nat) :
  forall (i : nat) (E2 dif : R) (k : nat) (E : R),
  (i <= 1000)%nat ->
  kepler_loop fuel M e e1 E1 i E2 dif = Some (k, E) ->
  (i <= k <= 1000)%nat.
Proof.
  induction fuel as [| fuel IH]; intros i E2 dif k E Hi; simpl.
  - intros [= <- <-]. lia.
  - destruct (i <? 1000)%nat eqn:Hlt; simpl.
    + apply Nat.ltb_lt in Hlt.
      destruct (JS.gtb dif tolerance).
      * destruct (JS.div _ _) as [dE |]; simpl; [| discriminate].
        intros H. apply IH in H; lia.
      * intros [= <- <-]. lia.
    + intros [= <- <-]. lia.
Qed.

(** With fuel for every remaining iteration, the loop ends because its
    own test fails: the cap is reached or the last difference is within
    the tolerance. *)
Lemma kepler_loop_exit (fuel : nat) :
  forall (i : nat) (E2 dif : R) (k : nat) (E : R),
  (1000 <= i + fuel)%nat ->
  kepler_loop fuel M e e1 E1 i E2 dif = Some (k, E) ->
  (k = i /\ E = E2 /\ ((1000 <= i)%nat \/ dif <= tolerance))
  \/ ((i < k)%nat /\ ((1000 <= k)%nat \/ Rabs (E1 - E) <= tolerance)).
Proof.
  induction fuel as [| fuel IH]; intros i E2 dif k E Hf; simpl.
  - intros [= <- <-]. left. repeat split. left. lia.
  - destruct (i <? 1000)%nat eqn:Hlt; simpl.
    + unfold JS.gtb, JS.ltb. destruct (Rlt_dec tolerance dif) as [Hd | Hd].
      * destruct (JS.div _ _) as [dE |]; simpl; [| discriminate].
        intros H. apply IH in H; [| lia].
        right. destruct H as [(-> & -> & H) | (Hk & H)].
        -- split; [lia |]. destruct H; [left; lia | right; assumption].
        -- split; [lia | assumption].
      * intros [= <- <-]. left. repeat split. right. lra.
    + intros [= <- <-]. apply Nat.ltb_ge in Hlt. left. repeat split. left. assumption.
Qed.

End KeplerLoop.

(** ** solveKeplerEquation *)

(** The loop is entered, since [1 > tolerance], and whatever the number of
    iterations allowed, its result is the first correction of [E0]. *)
Lemma kepler_loop_first_step (M e : R) (fuel : nat) :
  (r <- kepler_loop (S fuel) M e (180 / PI * e) (initialGuess M e) 0 0 1 ;;
   Some (snd r))
  = newtonStep M e (initialGuess M e).
Proof.
  rewrite kepler_loop_enter; [| lia | rewrite tolerance_value; lra].
  unfold newtonStep.
  destruct (JS.div _ _) as [dE |] eqn:Hdiv; simpl; [| reflexivity].
  destruct (kepler_loop_fixed M e _ _ dE Hdiv fuel 1%nat) as [k Hk].
  rewrite Hk. reflexivity.
Qed.

Lemma solveKeplerEquation_first_step (M e : R) :
  solveKeplerEquation M e = newtonStep M e (initialGuess M e).
Proof. exact (kepler_loop_first_step M e 999). Qed.

(** The denominator of the correction is positive for an elliptic orbit. *)
Lemma denominator_pos (e x : R) : 0 <= e < 1 -> 0 < 1 - e * cos x.
Proof.
  intros [H0 H1]. pose proof (COS_bound x) as [Hl Hu].
  assert (e * cos x <= e * 1) by (apply Rmult_le_compat_l; assumption).
  lra.
Qed.

(** ** Numeric bounds on sine and cosine *)

Section TaylorBounds.

Lemma INR_fact_eq (n : nat) (z : Z) :
  Z.of_nat (fact n) = z -> INR (fact n) = IZR z.
Proof. intros <-. apply INR_IZR_INZ. Qed.

Lemma cos_lb_poly (x : R) :
  cos_lb x = 1 - x ^ 2 / 2 + x ^ 4 / 24 - x ^ 6 / 720.
Proof.
  unfold cos_lb, cos_approx. cbn [sum_f_R0]. unfold cos_term.
  rewrite (INR_fact_eq (2 * 0) 1), (INR_fact_eq (2 * 1) 2),
    (INR_fact_eq (2 * 2) 24), (INR_fact_eq (2 * 3) 720) by reflexivity.
  cbn [Nat.mul Nat.add]. field.
Qed.

Lemma cos_ub_poly (x : R) :
  cos_ub x = 1 - x ^ 2 / 2 + x ^ 4 / 24 - x ^ 6 / 720 + x ^ 8 / 40320.
Proof.
  unfold cos_ub, cos_approx. cbn [sum_f_R0]. unfold cos_term.
  rewrite (INR_fact_eq (2 * 0) 1), (INR_fact_eq (2 * 1) 2),
    (INR_fact_eq (2 * 2) 24), (INR_fact_eq (2 * 3) 720),
    (INR_fact_eq (2 * 4) 40320) by reflexivity.
  cbn [Nat.mul Nat.add]. field.
Qed.

Lemma sin_lb_poly (x : R) :
  sin_lb x = x - x ^ 3 / 6 + x ^ 5 / 120 - x ^ 7 / 5040.
Proof.
  unfold sin_lb, sin_approx. cbn [sum_f_R0]. unfold sin_term.
  rewrite (INR_fact_eq (2 * 0 + 1) 1), (INR_fact_eq (2 * 1 + 1) 6),
    (INR_fact_eq (2 * 2 + 1) 120), (INR_fact_eq (2 * 3 + 1) 5040)
    by reflexivity.
  cbn [Nat.mul Nat.add]. field.
Qed.

Lemma div_le_bound (a d b : R) : 0 < d -> a <= b * d -> a / d <= b.
Proof.
  intros Hd H. apply Rmult_le_reg_r with d; [assumption |].
  replace (a / d * d) with a by (field; lra). assumption.
Qed.

Lemma div_ge_bound (a d b : R) : 0 < d -> b * d <= a -> b <= a / d.
Proof.
  intros Hd H. apply Rmult_le_reg_r with d; [assumption |].
  replace (a / d * d) with a by (field; lra). assumption.
Qed.

Lemma PI_gt_3 : 3 < PI.
Proof. pose proof PI2_3_2. lra. Qed.

Lemma cos_quarter_lb : 0.9689124 <= cos (1 / 4).
Proof.
  pose proof PI_gt_3.
  destruct (COS (1 / 4)) as [Hl _]; [lra | lra |].
  rewrite cos_lb_poly in Hl. lra.
Qed.

Lemma sin_quarter_lb : 0.2474039 <= sin (1 / 4).
Proof.
  pose proof PI_gt_3.
  destruct (SIN (1 / 4)) as [Hl _]; [lra | lra |].
  rewrite sin_lb_poly in Hl. lra.
Qed.

End TaylorBounds.

(** ** A run of the solver: M = 90 degrees, e = 1/4 *)

Section QuarterRun.

Lemma quarter_delta_bounds : 0.24268 <= quarter_delta <= 1 / 4.
Proof.
  pose proof cos_quarter_lb as Hc. pose proof sin_quarter_lb as Hs.
  pose proof (COS_bound (1 / 4)) as [_ Hc1].
  unfold quarter_delta.
  set (c := cos (1 / 4)) in *. set (s := sin (1 / 4)) in *.
  assert (Hden : 0 < 1 + 1 / 4 * s) by lra.
  assert (Hq : 0 <= (1 - c) / (1 + 1 / 4 * s) <= 0.02928).
  { split.
    - apply div_ge_bound; lra.
    - apply div_le_bound; [assumption | nra]. }
  lra.
Qed.

Lemma quarter_delta_gap : 0.0072 <= 1 / 4 - quarter_delta.
Proof.
  pose proof PI_gt_3.
  destruct (COS (1 / 4)) as [_ Hc]; [lra | lra |].
  rewrite cos_ub_poly in Hc.
  pose proof (sin_lt_x (1 / 4)) as Hs. pose proof sin_quarter_lb as Hs0.
  unfold quarter_delta.
  set (c := cos (1 / 4)) in *. set (s := sin (1 / 4)) in *.
  assert (Hq : 0.0288 <= (1 - c) / (1 + 1 / 4 * s)).
  { apply div_ge_bound; lra. }
  lra.
Qed.

(** The angles of the run, in radians. *)
Lemma quarter_M_rad : 90 * deg2rad = PI / 2.
Proof. unfold deg2rad. pose proof PI_RGT_0. field. Qed.

Lemma quarter_E0 : initialGuess 90 (1 / 4) = 90 + 45 / PI.
Proof.
  unfold initialGuess. rewrite quarter_M_rad, sin_PI2.
  pose proof PI_RGT_0. field. lra.
Qed.

Lemma quarter_E0_rad : deg2rad * (90 + 45 / PI) = PI / 2 + 1 / 4.
Proof. unfold deg2rad. pose proof PI_RGT_0. field. lra. Qed.

Lemma sin_quarter_turn (x : R) : sin (PI / 2 + x) = cos x.
Proof. symmetry. apply cos_sin. Qed.

Lemma cos_quarter_turn (x : R) : cos (PI / 2 + x) = - sin x.
Proof. rewrite (sin_cos x). ring. Qed.

Lemma quarter_newtonStep :
  newtonStep 90 (1 / 4) (initialGuess 90 (1 / 4)) = Some quarter_E.
Proof.
  rewrite quarter_E0. unfold newtonStep.
  rewrite quarter_E0_rad, sin_quarter_turn, cos_quarter_turn.
  pose proof sin_quarter_lb as Hs. pose proof PI_RGT_0 as Hpi.
  rewrite div_some by lra. simpl. f_equal.
  unfold quarter_E, quarter_delta. field. lra.
Qed.

Lemma quarter_E_rad : quarter_E * PI / 180 = PI / 2 + quarter_delta.
Proof. unfold quarter_E. pose proof PI_RGT_0. field. lra. Qed.

(** What is left of Kepler's equation at the returned value. *)
Lemma quarter_residual :
  quarter_E - 180 / PI * (1 / 4) * sin (quarter_E * PI / 180) - 90
  = 180 / PI * (quarter_delta - 1 / 4 * cos quarter_delta).
Proof.
  rewrite quarter_E_rad, sin_quarter_turn. unfold quarter_E.
  pose proof PI_RGT_0. field. lra.
Qed.

Lemma quarter_residual_lb :
  0.000005 <= quarter_delta - 1 / 4 * cos quarter_delta.
Proof.
  pose proof quarter_delta_bounds as [Hl Hu]. pose proof PI_gt_3.
  assert (Hmono : cos quarter_delta <= cos 0.24268)
    by (apply cos_decr_1; lra).
  destruct (COS 0.24268) as [_ Hc]; [lra | lra |].
  rewrite cos_ub_poly in Hc. lra.
Qed.

Lemma of_offset_rad (x : R) : deg2rad * of_offset x = PI / 2 + x.
Proof. unfold deg2rad, of_offset. pose proof PI_RGT_0. field. lra. Qed.

Lemma of_offset_lt (x y : R) : x < y -> of_offset x < of_offset y.
Proof.
  intros H. unfold of_offset. pose proof PI_RGT_0 as Hpi.
  assert (0 < 180 / PI) by (apply Rdiv_lt_0_compat; lra).
  nra.
Qed.

Lemma of_offset_dist (x y : R) :
  y <= x -> Rabs (of_offset x - of_offset y) = 180 / PI * (x - y).
Proof.
  intros H. unfold of_offset. pose proof PI_RGT_0 as Hpi.
  assert (0 < 180 / PI) by (apply Rdiv_lt_0_compat; lra).
  rewrite Rabs_pos_eq; [field; lra | nra].
Qed.

Lemma quarter_E_offset : quarter_E = of_offset quarter_delta.
Proof. reflexivity. Qed.

Lemma quarter_E0_offset : initialGuess 90 (1 / 4) = of_offset (1 / 4).
Proof. rewrite quarter_E0. unfold of_offset. pose proof PI_RGT_0. field. lra. Qed.

Lemma quarter_delta_N : quarter_delta = quarter_N (1 / 4).
Proof.
  unfold quarter_delta, quarter_N, quarter_f.
  pose proof sin_quarter_lb. field. lra.
Qed.

Lemma sin_nonneg_small (x : R) : 0 <= x <= 1 / 4 -> 0 <= sin x.
Proof. intros H. pose proof PI_gt_3. apply sin_ge_0; lra. Qed.

Lemma cos_nonneg_small (x : R) : 0 <= x <= 1 / 4 -> 0 <= cos x.
Proof. intros H. pose proof PI_gt_3. apply cos_ge_0; lra. Qed.

Lemma newtonStep_offset (x : R) :
  0 <= x <= 1 / 4 ->
  newtonStep 90 (1 / 4) (of_offset x) = Some (of_offset (quarter_N x)).
Proof.
  intros Hx. pose proof (sin_nonneg_small x Hx) as Hs.
  unfold newtonStep.
  rewrite of_offset_rad, sin_quarter_turn, cos_quarter_turn.
  pose proof PI_RGT_0 as Hpi.
  rewrite div_some by lra. simpl. f_equal.
  unfold of_offset, quarter_N, quarter_f. field. lra.
Qed.

(** The cosine lies below its tangents, here to the left of the point
    of contact. *)
Lemma cos_below_tangent (x y : R) :
  0 <= y <= x -> x <= 1 / 4 -> cos y <= cos x + sin x * (x - y).
Proof.
  intros Hy Hx.
  replace y with (x - (x - y)) at 1 by ring. rewrite cos_minus.
  pose proof (cos_nonneg_small x ltac:(lra)) as Hc.
  pose proof (sin_nonneg_small x ltac:(lra)) as Hs.
  pose proof (COS_bound (x - y)) as [_ Hct].
  assert (Hst : sin (x - y) <= x - y).
  { destruct (Req_dec (x - y) 0) as [-> | Hne].
    - rewrite sin_0. lra.
    - left. apply sin_lt_x. lra. }
  nra.
Qed.

(** A correction taken where the residual is not negative moves left,
    stays in range, and lands where the residual is not negative. *)
Lemma quarter_N_invariant (x : R) :
  0 <= x <= 1 / 4 -> 0 <= quarter_f x ->
  0 <= quarter_N x <= x /\ 0 <= quarter_f (quarter_N x).
Proof.
  intros Hx Hf.
  pose proof (sin_nonneg_small x Hx) as Hs.
  pose proof (cos_nonneg_small x Hx) as Hc.
  assert (Hden : 0 < 1 + 1 / 4 * sin x) by lra.
  assert (Hq : 0 <= quarter_f x / (1 + 1 / 4 * sin x))
    by (apply div_ge_bound; lra).
  assert (Hstep : quarter_f x / (1 + 1 / 4 * sin x) * (1 + 1 / 4 * sin x)
                  = quarter_f x) by (field; lra).
  assert (HN : 0 <= quarter_N x).
  { replace (quarter_N x)
      with ((1 / 4 * (x * sin x + cos x)) / (1 + 1 / 4 * sin x))
      by (unfold quarter_N, quarter_f; field; lra).
    apply div_ge_bound; nra. }
  assert (HNx : quarter_N x <= x) by (unfold quarter_N; lra).
  split; [split; assumption |].
  pose proof (cos_below_tangent x (quarter_N x) (conj HN HNx) (proj2 Hx)) as Ht.
  unfold quarter_f at 1. unfold quarter_N in *.
  set (q := quarter_f x / (1 + 1 / 4 * sin x)) in *.
  replace (x - (x - q)) with q in Ht by ring.
  unfold quarter_f in Hstep. nra.
Qed.

(** Every iterate of the specified iteration stays at or below the one
    it starts from; after a correction it is at or below the corrected
    one. *)
Lemma spec_iter_descends (n : nat) :
  forall (x dif : R),
  0 <= x <= 1 / 4 -> 0 <= quarter_f x ->
  exists x',
    spec_newtonRaphson_iter n 90 (1 / 4) (of_offset x) dif
      = Some (of_offset x')
    /\ 0 <= x' <= x
    /\ (tolerance < dif -> (0 < n)%nat -> x' <= quarter_N x).
Proof.
  induction n as [| n IH]; intros x dif Hx Hf.
  - exists x. simpl. repeat split; try lra. intros _ Hn. lia.
  - simpl. unfold JS.gtb, JS.ltb.
    destruct (Rlt_dec tolerance dif) as [Hd | Hd].
    + rewrite (newtonStep_offset x Hx). simpl.
      destruct (quarter_N_invariant x Hx Hf) as [HN HfN].
      destruct (IH (quarter_N x) (Rabs (of_offset x - of_offset (quarter_N x)))
                  ltac:(lra) HfN) as (x' & Hrun & Hx' & _).
      exists x'. repeat split; try assumption; try lra.
    + exists x. repeat split; lra.
Qed.

(** The code at this input: all 1000 iterations run, and each computes
    the same first correction. *)
Lemma quarter_code_run :
  solveKeplerEquation_run 90 (1 / 4) = Some (1000%nat, quarter_E).
Proof.
  pose proof (solveKeplerEquation_first_step 90 (1 / 4)) as Hfirst.
  rewrite quarter_newtonStep in Hfirst.
  unfold solveKeplerEquation in Hfirst.
  destruct (solveKeplerEquation_run 90 (1 / 4)) as [[k E] |] eqn:Hrun;
    simpl in Hfirst; [| discriminate].
  injection Hfirst as ->. f_equal. f_equal.
  unfold solveKeplerEquation_run in Hrun.
  pose proof (kepler_loop_count _ _ _ _ _ _ _ _ _ _ (Nat.le_0_l 1000) Hrun) as Hk.
  apply kepler_loop_exit in Hrun; [| lia].
  destruct Hrun as [(_ & _ & [H | H]) | (_ & [H | H])]; try lia.
  - rewrite tolerance_value in H. lra.
  - exfalso. fold (initialGuess 90 (1 / 4)) in H.
    rewrite quarter_E0_offset, quarter_E_offset in H.
    pose proof quarter_delta_gap as Hgap.
    rewrite of_offset_dist in H by lra.
    rewrite tolerance_value in H. pose proof PI_4 as Hpi4. pose proof PI_RGT_0 as Hpi.
    assert (Hinv : 180 / 4 <= 180 / PI).
    { apply div_ge_bound; lra. }
    nra.
Qed.

End QuarterRun.

(** ** The claims on solveKeplerEquation *)

Lemma spec_iter_enter (n : nat) (M e E dif : R) :
  tolerance < dif ->
  spec_newtonRaphson_iter (S n) M e E dif =
    (E' <- newtonStep M e E ;;
     spec_newtonRaphson_iter n M e E' (Rabs (E - E'))).
Proof. intros H. simpl. rewrite (gtb_true _ _ H). reflexivity. Qed.

Lemma quarter_first_gap :
  tolerance < Rabs (of_offset (1 / 4) - of_offset quarter_delta).
Proof.
  pose proof quarter_delta_gap as Hgap.
  rewrite of_offset_dist by lra.
  rewrite tolerance_value. pose proof PI_4 as Hpi4. pose proof PI_RGT_0 as Hpi.
  assert (Hinv : 180 / 4 <= 180 / PI) by (apply div_ge_bound; lra).
  nra.
Qed.

Lemma quarter_N_delta_lt : quarter_N quarter_delta < quarter_delta.
Proof.
  pose proof quarter_residual_lb as Hf. fold (quarter_f quarter_delta) in Hf.
  pose proof quarter_delta_bounds as Hb.
  pose proof (sin_nonneg_small quarter_delta ltac:(lra)) as Hs.
  unfold quarter_N.
  assert (0 < quarter_f quarter_delta / (1 + 1 / 4 * sin quarter_delta))
    by (apply Rdiv_lt_0_compat; lra).
  lra.
Qed.

(** C1, at the input M = 90, e = 1/4, which is inside the claimed domain:
    the solver returns a value, and what that value leaves of Kepler's
    equation, [E - e1 sin (E pi/180) - M], is more than 0.0002 degrees,
    twenty times the tolerance of 1e-5 the claim promises. *)
Theorem solveKeplerEquation_residual_at_quarter :
  -180 <= 90 <= 180 /\ 0 <= 1 / 4 < 0.3 /\
  exists E : R,
    solveKeplerEquation 90 (1 / 4) = Some E /\
    0.0002 < Rabs (E - 180 / PI * (1 / 4) * sin (E * PI / 180) - 90).
Proof.
  split; [lra |]. split; [lra |].
  exists quarter_E. split.
  - rewrite solveKeplerEquation_first_step. apply quarter_newtonStep.
  - rewrite quarter_residual.
    pose proof quarter_residual_lb as Hr.
    pose proof PI_4 as Hpi4. pose proof PI_RGT_0 as Hpi.
    assert (Hinv : 180 / 4 <= 180 / PI) by (apply div_ge_bound; lra).
    rewrite Rabs_pos_eq; nra.
Qed.

(** C2, at the input M = 90, e = 1/4: the code runs all 1000 iterations
    and returns the first correction of the initial guess, because [E1] is
    never replaced by [E2]; the iteration the claim describes, which
    corrects the updated iterate each time, returns a strictly smaller
    value. *)
Theorem solveKeplerEquation_iterate_not_updated :
  exists E E' : R,
    solveKeplerEquation_run 90 (1 / 4) = Some (1000%nat, E) /\
    newtonStep 90 (1 / 4) (initialGuess 90 (1 / 4)) = Some E /\
    solveKeplerEquation 90 (1 / 4) = Some E /\
    spec_newtonRaphson 90 (1 / 4) = Some E' /\
    E' < E.
Proof.
  pose proof quarter_delta_bounds as Hb.
  assert (Hf : 0 <= quarter_f quarter_delta)
    by (pose proof quarter_residual_lb; unfold quarter_f; lra).
  destruct (spec_iter_descends 999 quarter_delta
              (Rabs (of_offset (1 / 4) - of_offset quarter_delta))
              ltac:(lra) Hf) as (x' & Hrun & Hx' & Hdesc).
  exists quarter_E, (of_offset x'). repeat split.
  - apply quarter_code_run.
  - apply quarter_newtonStep.
  - rewrite solveKeplerEquation_first_step. apply quarter_newtonStep.
  - unfold spec_newtonRaphson. rewrite quarter_E0_offset.
    change 1000%nat with (S 999).
    rewrite spec_iter_enter by (rewrite tolerance_value; lra).
    rewrite newtonStep_offset by lra. rewrite <- quarter_delta_N. simpl JS.bind.
    exact Hrun.
  - rewrite quarter_E_offset. apply of_offset_lt.
    specialize (Hdesc quarter_first_gap ltac:(lia)).
    pose proof quarter_N_delta_lt. lra.
Qed.

(** C7: on a circular orbit, e = 0, the solver returns the mean anomaly
    itself, for every M. *)
Theorem solveKeplerEquation_circular (M : R) :
  solveKeplerEquation M 0 = Some M.
Proof.
  rewrite solveKeplerEquation_first_step.
  unfold newtonStep, initialGuess. pose proof PI_RGT_0 as Hpi.
  rewrite div_some by lra. simpl. f_equal. field. lra.
Qed.

(** C9: for every M and every e with 0 <= e < 1 the denominator
    [1 - e cos E] of the Newton step is not zero at any E, and the solver
    returns a number E after k iterations of its loop, where k is between
    1 and 1000; the loop has stopped either at the cap of 1000 or because
    the last difference was within the tolerance, and in both cases what
    is returned is the last computed [E2], the iterate
    [E0 + (M - (E0 - e1 sin E0)) / (1 - e cos E0)] that the body computes
    from the initial guess [E0]. *)
Theorem solveKeplerEquation_total (M e : R) :
  0 <= e < 1 ->
  (forall E : R, 1 - e * cos (deg2rad * E) <> 0) /\
  exists (k : nat) (E : R),
    solveKeplerEquation_run M e = Some (k, E) /\
    solveKeplerEquation M e = Some E /\
    (1 <= k <= 1000)%nat /\
    (k = 1000%nat \/ Rabs (initialGuess M e - E) <= tolerance) /\
    newtonStep M e (initialGuess M e) = Some E /\
    E = initialGuess M e
        + (M - (initialGuess M e
                - 180 / PI * e * sin (deg2rad * initialGuess M e)))
          / (1 - e * cos (deg2rad * initialGuess M e)).
Proof.
  intros He.
  assert (Hden : forall E : R, 1 - e * cos (deg2rad * E) <> 0).
  { intros E. pose proof (denominator_pos e (deg2rad * E) He). lra. }
  split; [exact Hden |].
  pose proof (solveKeplerEquation_first_step M e) as Hfirst.
  assert (Hstep : newtonStep M e (initialGuess M e)
                  = Some (initialGuess M e
                          + (M - (initialGuess M e
                                  - 180 / PI * e
                                    * sin (deg2rad * initialGuess M e)))
                            / (1 - e * cos (deg2rad * initialGuess M e)))).
  { unfold newtonStep. rewrite div_some by apply Hden. reflexivity. }
  rewrite Hstep in Hfirst. unfold solveKeplerEquation in Hfirst.
  destruct (solveKeplerEquation_run M e) as [[k E] |] eqn:Hrun;
    simpl in Hfirst; [| discriminate].
  injection Hfirst as HE.
  exists k, E. split; [reflexivity |].
  split; [unfold solveKeplerEquation; rewrite Hrun; reflexivity |].
  assert (Hcount : (1 <= k <= 1000)%nat
                   /\ (k = 1000%nat
                       \/ Rabs (initialGuess M e - E) <= tolerance)).
  { unfold solveKeplerEquation_run in Hrun.
    pose proof (kepler_loop_count _ _ _ _ _ _ _ _ _ _ (Nat.le_0_l 1000) Hrun)
      as Hk.
    apply kepler_loop_exit in Hrun; [| lia].
    destruct Hrun as [(_ & _ & [H | H]) | (Hpos & [H | H])].
    - lia.
    - rewrite tolerance_value in H. lra.
    - split; [lia |]. left. lia.
    - split; [lia |]. right. exact H. }
  destruct Hcount as [Hk Hexit].
  split; [exact Hk |]. split; [exact Hexit |].
  split; [rewrite Hstep, <- HE; reflexivity | exact HE].
Qed.

Lemma solveKeplerEquation_total_witness :
  0 <= 1 / 2 < 1 /\
  ((forall E : R, 1 - 1 / 2 * cos (deg2rad * E) <> 0) /\
   exists (k : nat) (E : R),
     solveKeplerEquation_run 30 (1 / 2) = Some (k, E) /\
     solveKeplerEquation 30 (1 / 2) = Some E /\
     (1 <= k <= 1000)%nat /\
     (k = 1000%nat \/ Rabs (initialGuess 30 (1 / 2) - E) <= tolerance) /\
     newtonStep 30 (1 / 2) (initialGuess 30 (1 / 2)) = Some E /\
     E = initialGuess 30 (1 / 2)
         + (30 - (initialGuess 30 (1 / 2)
                  - 180 / PI * (1 / 2)
                    * sin (deg2rad * initialGuess 30 (1 / 2))))
           / (1 - 1 / 2 * cos (deg2rad * initialGuess 30 (1 / 2)))).
Proof.
  split; [lra |]. apply (solveKeplerEquation_total 30 (1 / 2)). lra.
Defined.

(** C10: for every M and every e the solver returns exactly one Newton
    correction of the initial guess,
    [E0 + (M - (E0 - e1 sin (E0 pi/180))) / (1 - e cos (E0 pi/180))] with
    [E0 = M + e1 sin (M pi/180)] and [e1 = (180/pi) e]; and the loop gives
    that same value whatever number [n + 1] of iterations it is allowed,
    since every iteration reads the unchanged [E1]. *)
Theorem solveKeplerEquation_single_correction (M e : R) :
  let e1 := 180 / PI * e in
  let E0 := M + e1 * sin (M * PI / 180) in
  let oneCorrection :=
    dE <- JS.div (M - (E0 - e1 * sin (E0 * PI / 180)))
                 (1 - e * cos (E0 * PI / 180)) ;;
    Some (E0 + dE) in
  solveKeplerEquation M e = oneCorrection /\
  forall n : nat,
    (r <- kepler_loop (S n) M e e1 E0 0 0 1 ;; Some (snd r)) = oneCorrection.
Proof.
  intros e1 E0 oneCorrection.
  assert (HE0 : E0 = initialGuess M e).
  { unfold E0, e1, initialGuess, deg2rad. f_equal. f_equal. f_equal. field. }
  assert (Hone : oneCorrection = newtonStep M e (initialGuess M e)).
  { unfold oneCorrection, newtonStep. rewrite <- HE0. fold e1.
    replace (E0 * PI / 180) with (deg2rad * E0) by (unfold deg2rad; field).
    reflexivity. }
  rewrite Hone. split.
  - apply solveKeplerEquation_first_step.
  - intros n. rewrite HE0. apply kepler_loop_first_step.
Qed.

(** ** The mean anomaly and its modulus *)

Section MeanAnomaly.

Lemma trunc_unit (x : R) : 0 <= x < 1 -> JS.trunc x = 0%Z.
Proof.
  intros H. unfold JS.trunc. destruct (Rlt_dec x 0); [lra |].
  apply Zfloor_eq. simpl. lra.
Qed.

(** A dividend between 0 and the divisor is its own remainder. *)
Lemma rem_small (n d : R) : 0 < d -> 0 <= n < d -> JS.rem n d = n.
Proof.
  intros Hd Hn. unfold JS.rem. rewrite trunc_unit; [simpl; ring |].
  split.
  - apply div_ge_bound; lra.
  - assert (n / d <= n / d) as _ by lra.
    apply Rmult_lt_reg_r with d; [assumption |].
    replace (n / d * d) with n by (field; lra). lra.
Qed.

(** The remainder is smaller in magnitude than the divisor. *)
Lemma rem_range (n d : R) : 0 < d -> - d < JS.rem n d < d.
Proof.
intros Hd. unfold JS.rem, JS.trunc.
assert (Hn : n = n / d * d) by (field; lra).
destruct (Rlt_dec (n / d) 0) as [Hneg | Hpos].
- unfold Zceil. rewrite opp_IZR.
  pose proof (Zfloor_bound (- (n / d))) as [Hl Hu].
  set (q := IZR (Zfloor (- (n / d)))) in *. nra.
- pose proof (Zfloor_bound (n / d)) as [Hl Hu].
  set (q := IZR (Zfloor (n / d))) in *. nra.
Qed.

(** What line 46 does guarantee: a value strictly between -360 and 360. *)
Lemma normalizeMeanAnomaly_range (M : R) :
  -360 < normalizeMeanAnomaly M < 360.
Proof.
unfold normalizeMeanAnomaly.
destruct (JS.ltb M (-180) || JS.gtb M 180) eqn:Htest.
- apply rem_range. lra.
- apply orb_false_elim in Htest as [Hl Hg].
  unfold JS.gtb, JS.ltb in *.
  destruct (Rlt_dec M (-180)); [discriminate |].
  destruct (Rlt_dec 180 M); [discriminate |]. lra.
Qed.

(** Inside the range the test of line 46 fails and M is kept. *)
Lemma normalizeMeanAnomaly_inside (M : R) :
  -180 <= M <= 180 -> normalizeMeanAnomaly M = M.
Proof.
  intros H. unfold normalizeMeanAnomaly.
  rewrite ltb_false, gtb_false by lra. reflexivity.
Qed.

(** Between 180 and 360 the modulus is taken and changes nothing. *)
Lemma normalizeMeanAnomaly_above (M : R) :
  180 < M < 360 -> normalizeMeanAnomaly M = M.
Proof.
  intros H. unfold normalizeMeanAnomaly.
  rewrite ltb_false, gtb_true by lra. simpl.
  apply rem_small; lra.
Qed.

End MeanAnomaly.

(** ** The element evaluation *)

Section Elements.

Variables (keplerianElementsTable : table) (planetIndex : nat).
Variables (name : string).
Variables (a0 e0 I0 L0 W0 O0 at_ et It Lt Wt Ot b c s f : R).
Hypothesis Hrow :
  nth_error keplerianElementsTable planetIndex
  = Some (elementRow name a0 e0 I0 L0 W0 O0 at_ et It Lt Wt Ot b c s f).

Lemma keplerianElements_row (UNIXMilliTime : R) :
  let T := centuries UNIXMilliTime in
  keplerianElements keplerianElementsTable planetIndex UNIXMilliTime
  = Some (mkElements T (a0 + at_ * T) (e0 + et * T) (I0 + It * T)
            (L0 + Lt * T) (W0 + Wt * T) (O0 + Ot * T)
            ((W0 + Wt * T) - (O0 + Ot * T))
            ((L0 + Lt * T) - (W0 + Wt * T) + b * JS.pow2 T
             + c * cos (deg2rad * f * T) + s * sin (deg2rad * f * T))).
Proof.
  intros T. unfold keplerianElements, elem. rewrite Hrow. reflexivity.
Qed.

End Elements.

Lemma centuries_J2000 :
  centuries ((2451545 - 2440587.5) * 86400 * 1000) = 0.
Proof. unfold centuries, julianDate. lra. Qed.

Lemma centuries_Mercury_day : centuries 947043576000 = 0.0001.
Proof. unfold centuries, julianDate. lra. Qed.

(** C3, at Mercury in the 1800-2050 table, 3.6525 days after J2000.0
    (UNIX time 947043576000 ms): the mean anomaly first computed is
    189.739778583486 degrees, outside [-180, 180]; the modulus of line 46
    is taken and returns the same 189.739778583486, which is still outside
    [-180, 180], against the claim and against the comment on that line
    ("Modulus M to be between -180 and 180"). *)
Theorem normalizeMeanAnomaly_Mercury_out_of_range :
  exists el : elements,
    keplerianElements keplerianElements2050 0 947043576000 = Some el /\
    el_M el = 189.739778583486 /\
    ~ (-180 <= el_M el <= 180) /\
    normalizeMeanAnomaly (el_M el) = 189.739778583486 /\
    ~ (-180 <= normalizeMeanAnomaly (el_M el) <= 180).
Proof.
  eexists. split.
  - apply (keplerianElements_row keplerianElements2050 0 "Mercury").
    reflexivity.
  - cbn [el_M]. rewrite centuries_Mercury_day. unfold JS.pow2.
    assert (HM : 252.25032350 + 149472.67411175 * 0.0001
                 - (77.45779628 + 0.16047689 * 0.0001) + 0 * 0.0001 ^ 2
                 + 0 * cos (deg2rad * 0 * 0.0001)
                 + 0 * sin (deg2rad * 0 * 0.0001) = 189.739778583486) by lra.
    rewrite HM. split; [reflexivity |]. split; [lra |].
    rewrite normalizeMeanAnomaly_above by lra. split; [reflexivity | lra].
Qed.

(** C4: with the selected row holding the bases in columns 1 to 6, the
    rates in columns 7 to 12 and b, c, s, f in columns 13 to 16, the
    function evaluates JED = ms/1000/86400 + 2440587.5,
    T = (JED - 2451545)/36525, each of a, e, I, L, W, O as base + rate T,
    w = W - O and M = L - W + b T^2 + c cos (f T deg2rad)
    + s sin (f T deg2rad); and M is L - W when b, c, s, f are all zero. *)
Theorem keplerianElements_formulas
    (keplerianElementsTable : table) (planetIndex : nat) (name : string)
    (a0 e0 I0 L0 W0 O0 at_ et It Lt Wt Ot b c s f instantMillis : R) :
  nth_error keplerianElementsTable planetIndex
  = Some (elementRow name a0 e0 I0 L0 W0 O0 at_ et It Lt Wt Ot b c s f) ->
  let JED := instantMillis / 1000 / 86400 + 2440587.5 in
  let T := (JED - 2451545) / 36525 in
  let a := a0 + at_ * T in
  let e := e0 + et * T in
  let I := I0 + It * T in
  let L := L0 + Lt * T in
  let W := W0 + Wt * T in
  let O := O0 + Ot * T in
  let w := W - O in
  let M := L - W + b * T ^ 2 + c * cos (f * T * deg2rad)
           + s * sin (f * T * deg2rad) in
  keplerianElements keplerianElementsTable planetIndex instantMillis
  = Some (mkElements T a e I L W O w M)
  /\ (b = 0 -> c = 0 -> s = 0 -> f = 0 -> M = L - W).
Proof.
  intros Hrow JED T a e I L W O w M. split.
  - rewrite (keplerianElements_row _ _ _ _ _ _ _ _ _ _ _ _ _ _ _ _ _ _ _ Hrow).
    unfold M, JS.pow2.
    replace (f * T * deg2rad) with (deg2rad * f * T) by ring.
    reflexivity.
  - intros -> -> -> ->. unfold M. ring.
Qed.

Lemma keplerianElements_formulas_witness :
  exists el : elements,
    keplerianElements keplerianElements3000 4 0 = Some el /\
    el_a el = 5.20248019 + -0.00002864
              * ((0 / 1000 / 86400 + 2440587.5 - 2451545) / 36525).
Proof.
  destruct (keplerianElements_formulas keplerianElements3000 4 "Jupiter"
              5.20248019 0.04853590 1.29861416 34.33479152 14.27495244
              100.29282654 (-0.00002864) 0.00018026 (-0.00322699)
              3034.90371757 0.18199196 0.13024619
              (-0.00012452) 0.06064060 (-0.35635438) 38.35125000 0
              eq_refl) as [H _].
  eexists. split; [exact H | reflexivity].
Defined.

(** C5: in the 1800-2050 table, row 2 is the Earth-Moon barycenter; at the
    instant with JED = 2451545.0, that is (2451545 - 2440587.5) * 86400 *
    1000 milliseconds, T is 0, each of a, e, I, L, W, O is the base value
    of its column, and the mean anomaly before the modulus is
    100.46457166 - 102.93768193 = -2.47311027 degrees. *)
Theorem keplerianElements_EMBary_J2000 :
  let instantMillis := (2451545 - 2440587.5) * 86400 * 1000 in
  nth_error keplerianElements2050 2
  = Some (elementRow "EM Bary" 1.00000261 0.01671123 (-0.00001531)
            100.46457166 102.93768193 0.0
            0.00000562 (-0.00004392) (-0.01294668)
            35999.37244981 0.32327364 0.0 0 0 0 0) /\
  julianDate instantMillis = 2451545.0 /\
  exists el : elements,
    keplerianElements keplerianElements2050 2 instantMillis = Some el /\
    el_T el = 0 /\
    elem keplerianElements2050 2 1 = Some (el_a el) /\
    elem keplerianElements2050 2 2 = Some (el_e el) /\
    elem keplerianElements2050 2 3 = Some (el_I el) /\
    elem keplerianElements2050 2 4 = Some (el_L el) /\
    elem keplerianElements2050 2 5 = Some (el_W el) /\
    elem keplerianElements2050 2 6 = Some (el_O el) /\
    el_M el = 100.46457166 - 102.93768193 /\
    el_M el = -2.47311027.
Proof.
  intros instantMillis.
  split; [reflexivity |].
  split; [unfold julianDate, instantMillis; lra |].
  eexists. split.
  - apply (keplerianElements_row keplerianElements2050 2 "EM Bary").
    reflexivity.
  - cbn [el_T el_a el_e el_I el_L el_W el_O el_M]. unfold instantMillis.
    rewrite centuries_J2000. unfold elem. cbn [nth_error keplerianElements2050].
    unfold JS.pow2.
    repeat split; try (f_equal; lra); lra.
Qed.

(** ** The frame transforms *)

Section Rotations.

Lemma sin_cos_sq (x : R) : sin x * sin x + cos x * cos x = 1.
Proof. exact (sin2_cos2 x). Qed.

(** The two columns of the ecliptic rotation are orthonormal. *)
Lemma rotation_squares (cw sw cO sO cI sI x1 y1 : R) :
  sw * sw + cw * cw = 1 -> sO * sO + cO * cO = 1 -> sI * sI + cI * cI = 1 ->
  let X := (cw * cO - sw * sO * cI) * x1 + (- sw * cO - cw * sO * cI) * y1 in
  let Y := (cw * sO + sw * cO * cI) * x1 + (- sw * sO + cw * cO * cI) * y1 in
  let Z := (sw * sI) * x1 + (cw * sI) * y1 in
  X * X + (Y * Y + (Z * Z + 0)) = x1 * x1 + (y1 * y1 + (0 * 0 + 0)).
Proof. intros Hw HO HI X Y Z. unfold X, Y, Z. nsatz. Qed.

Lemma eclipticRotation_norm (w O I x1 y1 : R) :
  norm (eclipticRotation w O I x1 y1) = norm [x1; y1; 0].
Proof.
  unfold norm, eclipticRotation. cbn [fold_right]. f_equal.
  apply rotation_squares; apply sin_cos_sq.
Qed.

Lemma convertToICRF_value (X Y Z : R) :
  convertToICRF [X; Y; Z]
  = Some [X;
          cos (deg2rad * obliquity) * Y - sin (deg2rad * obliquity) * Z;
          sin (deg2rad * obliquity) * Y + cos (deg2rad * obliquity) * Z].
Proof. reflexivity. Qed.

Lemma obliquity_squares (c s Y Z : R) :
  s * s + c * c = 1 ->
  (c * Y - s * Z) * (c * Y - s * Z)
  + ((s * Y + c * Z) * (s * Y + c * Z) + 0)
  = Y * Y + (Z * Z + 0).
Proof. intros H. nsatz. Qed.

Lemma convertToICRF_norm (X Y Z : R) :
  exists v : list R,
    convertToICRF [X; Y; Z] = Some v /\ norm v = norm [X; Y; Z].
Proof.
  eexists. split; [apply convertToICRF_value |].
  unfold norm. cbn [fold_right]. f_equal. f_equal.
  apply obliquity_squares, sin_cos_sq.
Qed.

(** What [computeEclipticCoordinates] returns is the rotation of the
    orbital-plane position it computed on the way. *)
Lemma computeEclipticCoordinates_inv
    (keplerianElementsTable : table) (planetIndex : nat)
    (UNIXMilliTime : R) (v : list R) :
  computeEclipticCoordinates keplerianElementsTable planetIndex UNIXMilliTime
  = Some v ->
  exists (el : elements) (E x1 y1 : R),
    keplerianElements keplerianElementsTable planetIndex UNIXMilliTime
    = Some el /\
    solveKeplerEquation (normalizeMeanAnomaly (el_M el)) (el_e el) = Some E /\
    orbitalPlane (el_a el) (el_e el) E = Some (x1, y1) /\
    v = eclipticRotation (el_w el) (el_O el) (el_I el) x1 y1.
Proof.
  unfold computeEclipticCoordinates.
  destruct (keplerianElements _ _ _) as [el |]; simpl; [| discriminate].
  destruct (solveKeplerEquation _ _) as [E |] eqn:HE; simpl; [| discriminate].
  destruct (orbitalPlane _ _ _) as [[x1 y1] |] eqn:Hxy; simpl; [| discriminate].
  intros [= <-]. exists el, E, x1, y1. auto.
Qed.

End Rotations.

(** The whole computation goes through for the Earth-Moon barycenter at
    J2000.0. *)
Lemma computeEclipticCoordinates_EMBary_J2000 :
  exists v : list R,
    computeEclipticCoordinates keplerianElements2050 2
      ((2451545 - 2440587.5) * 86400 * 1000) = Some v.
Proof.
  unfold computeEclipticCoordinates.
  rewrite (keplerianElements_row keplerianElements2050 2 "EM Bary"
             _ _ _ _ _ _ _ _ _ _ _ _ _ _ _ _ eq_refl).
  rewrite centuries_J2000. cbn [JS.bind el_M el_e el_a el_w el_O el_I].
  rewrite solveKeplerEquation_first_step. unfold newtonStep.
  rewrite div_some.
  2:{ match goal with |- 1 - ?e * cos ?x <> 0 =>
        pose proof (denominator_pos e x ltac:(lra)) end. lra. }
  cbn [JS.bind]. unfold orbitalPlane, JS.sqrt.
  destruct (Rlt_dec _ 0) as [Hneg | _]; [exfalso; lra |].
  cbn [JS.bind]. eexists. reflexivity.
Qed.

(** C6: for every input [Xecl, Yecl, Zecl] the result is the rotation
    about the X axis by the constant 23.43928 degrees: component 0 is
    Xecl, component 1 is cos eps Yecl - sin eps Zecl, component 2 is
    sin eps Yecl + cos eps Zecl.  The function takes the position only;
    no table is among its arguments. *)
Theorem convertToICRF_rotation (Xecl Yecl Zecl : R) :
  let eps := 23.43928 * (PI / 180) in
  convertToICRF [Xecl; Yecl; Zecl]
  = Some [Xecl;
          cos eps * Yecl - sin eps * Zecl;
          sin eps * Yecl + cos eps * Zecl].
Proof.
  intros eps. rewrite convertToICRF_value.
  replace (deg2rad * obliquity) with eps
    by (unfold eps, deg2rad, obliquity; ring).
  reflexivity.
Qed.

(** C8: both frame transforms keep the Euclidean length.  The ecliptic
    rotation of any orbital-plane vector (x1, y1, 0), by any angles w, O,
    I, has the length of (x1, y1, 0); so has every result of
    [computeEclipticCoordinates], against the orbital-plane position it
    was rotated from; and [convertToICRF] of any 3-vector has the length
    of that vector. *)
Theorem frame_transforms_preserve_norm :
  (forall w O I x1 y1 : R,
     norm (eclipticRotation w O I x1 y1) = norm [x1; y1; 0]) /\
  (forall (keplerianElementsTable : table) (planetIndex : nat)
          (UNIXMilliTime : R) (v : list R),
     computeEclipticCoordinates keplerianElementsTable planetIndex
       UNIXMilliTime = Some v ->
     exists (el : elements) (E x1 y1 : R),
       keplerianElements keplerianElementsTable planetIndex UNIXMilliTime
       = Some el /\
       solveKeplerEquation (normalizeMeanAnomaly (el_M el)) (el_e el)
       = Some E /\
       orbitalPlane (el_a el) (el_e el) E = Some (x1, y1) /\
       norm v = norm [x1; y1; 0]) /\
  (forall X Y Z : R,
     exists v : list R,
       convertToICRF [X; Y; Z] = Some v /\ norm v = norm [X; Y; Z]).
Proof.
  split; [exact eclipticRotation_norm |].
  split; [| exact convertToICRF_norm].
  intros tbl p t v Hv.
  destruct (computeEclipticCoordinates_inv tbl p t v Hv)
    as (el & E & x1 & y1 & Hel & HE & Hxy & ->).
  exists el, E, x1, y1. repeat split; try assumption.
  apply eclipticRotation_norm.
Qed.

Lemma frame_transforms_preserve_norm_witness :
  exists (v : list R) (x1 y1 : R),
    computeEclipticCoordinates keplerianElements2050 2
      ((2451545 - 2440587.5) * 86400 * 1000) = Some v /\
    norm v = norm [x1; y1; 0].
Proof.
  destruct computeEclipticCoordinates_EMBary_J2000 as [v Hv].
  destruct (proj1 (proj2 frame_transforms_preserve_norm)
              keplerianElements2050 2%nat _ v Hv)
    as (el & E & x1 & y1 & _ & _ & _ & Hn).
  exists v, x1, y1. split; assumption.
Defined.

(** * Further properties of the code *)

(** ** Reading outside the table (lines 16 to 39) *)

Lemma elem_outside (t : table) (p k : nat) :
  (List.length t <= p)%nat
  \/ (exists r : row, nth_error t p = Some r /\ (List.length r <= k)%nat) ->
  elem t p k = None.
Proof.
  unfold elem. intros [Hp | (r & Hr & Hk)].
  - apply nth_error_None in Hp. rewrite Hp. reflexivity.
  - rewrite Hr. apply nth_error_None in Hk. rewrite Hk. reflexivity.
Qed.

(** With a [planetIndex] past the end of the table, or a selected row of
    fewer than 17 cells, so that at least the read of index 16 finds
    nothing, neither elements nor a position are obtained. *)
Theorem computeEclipticCoordinates_out_of_range
    (keplerianElementsTable : table) (planetIndex : nat) (UNIXMilliTime : R) :
  (List.length keplerianElementsTable <= planetIndex)%nat
  \/ (exists r : row,
        nth_error keplerianElementsTable planetIndex = Some r
        /\ (List.length r < 17)%nat) ->
  keplerianElements keplerianElementsTable planetIndex UNIXMilliTime = None
  /\ computeEclipticCoordinates keplerianElementsTable planetIndex
       UNIXMilliTime = None.
Proof.
  intros Hout.
  assert (H16 : elem keplerianElementsTable planetIndex 16 = None).
  { apply elem_outside. destruct Hout as [Hp | (r & Hr & Hlen)].
    - left. exact Hp.
    - right. exists r. split; [exact Hr | lia]. }
  assert (Hel : keplerianElements keplerianElementsTable planetIndex
                  UNIXMilliTime = None).
  { unfold keplerianElements. cbv zeta.
    repeat match goal with
           | |- JS.bind (elem _ _ 16) _ = None => rewrite H16; reflexivity
           | |- JS.bind (elem ?t ?p ?k) _ = None =>
               destruct (elem t p k); cbn [JS.bind]; [| reflexivity]
           end. }
  split; [exact Hel |].
  unfold computeEclipticCoordinates. rewrite Hel. reflexivity.
Qed.

Lemma computeEclipticCoordinates_out_of_range_witness :
  keplerianElements keplerianElements2050 9 0 = None
  /\ computeEclipticCoordinates keplerianElements2050 9 0 = None.
Proof.
  apply (computeEclipticCoordinates_out_of_range keplerianElements2050 9 0).
  left. simpl. lia.
Defined.

(** ** When a position is returned *)

Section Definedness.

Lemma div_defined (x y : R) : (exists q, JS.div x y = Some q) <-> y <> 0.
Proof.
  unfold JS.div. destruct (Req_dec_T y 0) as [H0 | Hn].
  - split; [intros [q H]; discriminate | contradiction].
  - split; [intros _; exact Hn | intros _; eexists; reflexivity].
Qed.

Lemma sqrt_defined (x : R) : (exists r, JS.sqrt x = Some r) <-> 0 <= x.
Proof.
  unfold JS.sqrt. destruct (Rlt_dec x 0) as [Hneg | Hpos].
  - split; [intros [r H]; discriminate | lra].
  - split; [lra | intros _; eexists; reflexivity].
Qed.

Lemma solveKeplerEquation_defined (M e : R) :
  (exists E, solveKeplerEquation M e = Some E)
  <-> 1 - e * cos (deg2rad * initialGuess M e) <> 0.
Proof.
  rewrite solveKeplerEquation_first_step. unfold newtonStep.
  rewrite <- (div_defined
    (M - (initialGuess M e
          - 180 / PI * e * sin (deg2rad * initialGuess M e)))).
  destruct (JS.div _ _) as [q |]; simpl.
  - split; intros _; eexists; reflexivity.
  - split; intros [q H]; discriminate.
Qed.

Lemma orbitalPlane_defined (a e E : R) :
  (exists xy, orbitalPlane a e E = Some xy) <-> e * e <= 1.
Proof.
  unfold orbitalPlane.
  assert (Hs := sqrt_defined (1 - e * e)).
  destruct (JS.sqrt (1 - e * e)) as [r |]; simpl.
  - split; [intros _ | intros _; eexists; reflexivity].
    assert (0 <= 1 - e * e) by (apply Hs; eexists; reflexivity). lra.
  - split; [intros [xy H]; discriminate |].
    intros H. assert (Hex : exists r : R, @None R = Some r) by (apply Hs; lra).
    destruct Hex as [r Hr]. discriminate.
Qed.

End Definedness.

(** With an evaluated eccentricity of e^2 > 1, a hyperbolic orbit, line 53
    takes the square root of a negative number and no position is
    returned, whatever the table, the row and the instant. *)
Theorem computeEclipticCoordinates_hyperbolic
    (keplerianElementsTable : table) (planetIndex : nat) (UNIXMilliTime : R)
    (el : elements) :
  keplerianElements keplerianElementsTable planetIndex UNIXMilliTime
  = Some el ->
  1 < el_e el * el_e el ->
  computeEclipticCoordinates keplerianElementsTable planetIndex UNIXMilliTime
  = None.
Proof.
  intros Hel He. unfold computeEclipticCoordinates. rewrite Hel.
  cbn [JS.bind].
  destruct (solveKeplerEquation _ _) as [E |]; cbn [JS.bind];
    [| reflexivity].
  unfold orbitalPlane, JS.sqrt.
  destruct (Rlt_dec (1 - el_e el * el_e el) 0) as [_ | Hn];
    [reflexivity | exfalso; lra].
Qed.

Lemma computeEclipticCoordinates_hyperbolic_witness :
  computeEclipticCoordinates
    [elementRow "Comet" 1 2 0 0 0 0 0 0 0 0 0 0 0 0 0 0] 0 0 = None.
Proof.
  eapply (computeEclipticCoordinates_hyperbolic
            [elementRow "Comet" 1 2 0 0 0 0 0 0 0 0 0 0 0 0 0 0] 0 0).
  - apply (keplerianElements_row _ 0 "Comet"). reflexivity.
  - cbn [el_e]. unfold centuries, julianDate. nra.
Defined.

Lemma computeEclipticCoordinates_elliptic
    (keplerianElementsTable : table) (planetIndex : nat) (UNIXMilliTime : R)
    (el : elements) :
  keplerianElements keplerianElementsTable planetIndex UNIXMilliTime
  = Some el ->
  0 <= el_e el < 1 ->
  exists X Y Z : R,
    computeEclipticCoordinates keplerianElementsTable planetIndex
      UNIXMilliTime = Some [X; Y; Z].
Proof.
  intros Hel He.
  assert (Hden : 1 - el_e el
                     * cos (deg2rad * initialGuess
                              (normalizeMeanAnomaly (el_M el)) (el_e el))
                 <> 0).
  { pose proof (denominator_pos (el_e el)
                  (deg2rad * initialGuess
                     (normalizeMeanAnomaly (el_M el)) (el_e el)) He). lra. }
  apply solveKeplerEquation_defined in Hden as [E HE].
  assert (Hsq : el_e el * el_e el <= 1) by nra.
  apply (orbitalPlane_defined (el_a el) (el_e el) E) in Hsq as [xy Hxy].
  unfold computeEclipticCoordinates. rewrite Hel. cbn [JS.bind].
  rewrite HE. cbn [JS.bind]. rewrite Hxy. cbn [JS.bind].
  unfold eclipticRotation. do 3 eexists. reflexivity.
Qed.

Ltac bundled_row :=
  eexists; split;
  [ erewrite keplerianElements_row by reflexivity; reflexivity
  | cbn [el_e el_a]; split; lra ].

Lemma bundled_elements (keplerianElementsTable : table) (planetIndex : nat)
    (UNIXMilliTime : R) :
  keplerianElementsTable = keplerianElements2050
  \/ keplerianElementsTable = keplerianElements3000 ->
  (planetIndex < 9)%nat ->
  -100 <= centuries UNIXMilliTime <= 100 ->
  exists el : elements,
    keplerianElements keplerianElementsTable planetIndex UNIXMilliTime
    = Some el /\
    0 < el_e el < 0.3 /\ 0 < el_a el.
Proof.
  intros Htbl Hp HT.
  destruct Htbl as [-> | ->];
    do 9 (destruct planetIndex as [| planetIndex];
          [bundled_row |]); exfalso; lia.
Qed.

(** For each of the two tables of the file, each of their nine rows and
    every instant within 100 Julian centuries of J2000.0, the eccentricity
    evaluated is strictly between 0 and 0.3, the semi-major axis is
    positive, and [computeEclipticCoordinates] returns a position of three
    real components: no read fails, no division is by zero and no square
    root is of a negative number. *)
Theorem computeEclipticCoordinates_bundled_total
    (keplerianElementsTable : table) (planetIndex : nat)
    (UNIXMilliTime : R) :
  keplerianElementsTable = keplerianElements2050
  \/ keplerianElementsTable = keplerianElements3000 ->
  (planetIndex < 9)%nat ->
  -100 <= centuries UNIXMilliTime <= 100 ->
  exists (el : elements) (X Y Z : R),
    keplerianElements keplerianElementsTable planetIndex UNIXMilliTime
    = Some el /\
    0 < el_e el < 0.3 /\ 0 < el_a el /\
    computeEclipticCoordinates keplerianElementsTable planetIndex
      UNIXMilliTime = Some [X; Y; Z].
Proof.
  intros Htbl Hp HT.
  destruct (bundled_elements _ _ _ Htbl Hp HT) as (el & Hel & He & Ha).
  destruct (computeEclipticCoordinates_elliptic _ _ _ el Hel ltac:(lra))
    as (X & Y & Z & Hv).
  exists el, X, Y, Z. repeat split; try assumption; lra.
Qed.

Lemma computeEclipticCoordinates_bundled_total_witness :
  exists (el : elements) (X Y Z : R),
    keplerianElements keplerianElements3000 8 0 = Some el /\
    0 < el_e el < 0.3 /\ 0 < el_a el /\
    computeEclipticCoordinates keplerianElements3000 8 0 = Some [X; Y; Z].
Proof.
  apply (computeEclipticCoordinates_bundled_total keplerianElements3000 8 0).
  - right. reflexivity.
  - lia.
  - unfold centuries, julianDate. lra.
Defined.

(** ** Distance from the Sun *)

Section Distance.

Lemma orbitalPlane_radius (a e E x1 y1 : R) :
  orbitalPlane a e E = Some (x1, y1) ->
  x1 * x1 + y1 * y1
  = (a * (1 - e * cos (deg2rad * E))) * (a * (1 - e * cos (deg2rad * E)))
  /\ e * e <= 1.
Proof.
  unfold orbitalPlane, JS.sqrt.
  destruct (Rlt_dec (1 - e * e) 0) as [Hneg | Hpos]; simpl; [discriminate |].
  intros [= <- <-].
  assert (Hr : R_sqrt.sqrt (1 - e * e) * R_sqrt.sqrt (1 - e * e) = 1 - e * e)
    by (apply sqrt_sqrt; lra).
  pose proof (sin_cos_sq (deg2rad * E)) as Hsc.
  set (r := R_sqrt.sqrt (1 - e * e)) in *.
  set (c := cos (deg2rad * E)) in *. set (s := sin (deg2rad * E)) in *.
  split; [| lra].
  replace (a * (c - e) * (a * (c - e)) + a * r * s * (a * r * s))
    with (a * a * ((c - e) * (c - e) + (r * r) * (s * s))) by ring.
  rewrite Hr. replace (s * s) with (1 - c * c) by lra. ring.
Qed.

Lemma norm_orbitalPlane (a e E x1 y1 : R) :
  orbitalPlane a e E = Some (x1, y1) ->
  0 <= a -> 0 <= e ->
  norm [x1; y1; 0] = a * (1 - e * cos (deg2rad * E))
  /\ a * (1 - e) <= norm [x1; y1; 0] <= a * (1 + e).
Proof.
  intros Hxy Ha He. apply orbitalPlane_radius in Hxy as [Hsq He1].
  assert (He' : e <= 1) by nra.
  pose proof (COS_bound (deg2rad * E)) as [Hc1 Hc2].
  set (c := cos (deg2rad * E)) in *. clearbody c.
  assert (Hec1 : e * c <= e * 1) by (apply Rmult_le_compat_l; lra).
  assert (Hec2 : e * (-1) <= e * c) by (apply Rmult_le_compat_l; lra).
  assert (Hpos : 0 <= a * (1 - e * c)) by (apply Rmult_le_pos; lra).
  assert (Hn : norm [x1; y1; 0] = a * (1 - e * c)).
  { unfold norm. cbn [fold_right].
    replace (x1 * x1 + (y1 * y1 + (0 * 0 + 0))) with (x1 * x1 + y1 * y1)
      by ring.
    rewrite Hsq. apply sqrt_square. exact Hpos. }
  rewrite Hn. split; [reflexivity |].
  split; apply Rmult_le_compat_l; lra.
Qed.

End Distance.

(** Whenever a position is returned for elements with a >= 0 and e >= 0,
    its distance from the origin is a (1 - e cos E), E being the value the
    solver returned; so it lies between the perihelion distance a (1 - e)
    and the aphelion distance a (1 + e).  [convertToICRF] accepts that
    position and keeps the distance. *)
Theorem computeEclipticCoordinates_distance
    (keplerianElementsTable : table) (planetIndex : nat) (UNIXMilliTime : R)
    (el : elements) (v : list R) :
  keplerianElements keplerianElementsTable planetIndex UNIXMilliTime
  = Some el ->
  computeEclipticCoordinates keplerianElementsTable planetIndex UNIXMilliTime
  = Some v ->
  0 <= el_a el -> 0 <= el_e el ->
  (exists E : R,
     solveKeplerEquation (normalizeMeanAnomaly (el_M el)) (el_e el) = Some E
     /\ norm v = el_a el * (1 - el_e el * cos (deg2rad * E)))
  /\ el_a el * (1 - el_e el) <= norm v <= el_a el * (1 + el_e el)
  /\ exists v' : list R, convertToICRF v = Some v' /\ norm v' = norm v.
Proof.
  intros Hel Hv Ha He.
  destruct (computeEclipticCoordinates_inv _ _ _ _ Hv)
    as (el' & E & x1 & y1 & Hel' & HE & Hxy & ->).
  rewrite Hel in Hel'. injection Hel' as <-.
  destruct (norm_orbitalPlane _ _ _ _ _ Hxy Ha He) as [Hn Hb].
  rewrite eclipticRotation_norm.
  split; [exists E; split; assumption |].
  split; [exact Hb |].
  unfold eclipticRotation. cbv zeta.
  match goal with |- exists v', convertToICRF [?X; ?Y; ?Z] = _ /\ _ =>
    destruct (convertToICRF_norm X Y Z) as (v' & Hv' & Hn');
    exists v'; split; [exact Hv' |]
  end.
  rewrite Hn'. exact (eclipticRotation_norm _ _ _ x1 y1).
Qed.

Lemma computeEclipticCoordinates_distance_witness :
  exists (el : elements) (v : list R),
    keplerianElements keplerianElements2050 0 946728000000 = Some el /\
    computeEclipticCoordinates keplerianElements2050 0 946728000000 = Some v /\
    el_a el * (1 - el_e el) <= norm v <= el_a el * (1 + el_e el).
Proof.
  assert (HT : -100 <= centuries 946728000000 <= 100)
    by (unfold centuries, julianDate; lra).
  destruct (bundled_elements keplerianElements2050 0 946728000000
              (or_introl eq_refl) ltac:(lia) HT) as (el & Hel & He & Ha).
  destruct (computeEclipticCoordinates_elliptic _ _ _ el Hel ltac:(lra))
    as (X & Y & Z & Hv).
  exists el, [X; Y; Z]. split; [exact Hel |]. split; [exact Hv |].
  apply (computeEclipticCoordinates_distance keplerianElements2050 0
           946728000000 el [X; Y; Z] Hel Hv); lra.
Defined.

(** ** Symmetries of the solver *)

Section SolverSymmetries.

Lemma sin_period_Z (x : R) (k : Z) : sin (x + 2 * IZR k * PI) = sin x.
Proof.
  destruct (Z_le_gt_dec 0 k) as [Hk | Hk].
  - rewrite <- (Z2Nat.id k Hk), <- INR_IZR_INZ. apply sin_period.
  - rewrite <- (sin_period (x + 2 * IZR k * PI) (Z.to_nat (- k))).
    f_equal. rewrite INR_IZR_INZ, Z2Nat.id by lia. rewrite opp_IZR. ring.
Qed.

Lemma cos_period_Z (x : R) (k : Z) : cos (x + 2 * IZR k * PI) = cos x.
Proof.
  destruct (Z_le_gt_dec 0 k) as [Hk | Hk].
  - rewrite <- (Z2Nat.id k Hk), <- INR_IZR_INZ. apply cos_period.
  - rewrite <- (cos_period (x + 2 * IZR k * PI) (Z.to_nat (- k))).
    f_equal. rewrite INR_IZR_INZ, Z2Nat.id by lia. rewrite opp_IZR. ring.
Qed.

Lemma turns_rad (x : R) (k : Z) :
  deg2rad * (x + 360 * IZR k) = deg2rad * x + 2 * IZR k * PI.
Proof. unfold deg2rad. field. Qed.

Lemma initialGuess_period (M e : R) (k : Z) :
  initialGuess (M + 360 * IZR k) e = initialGuess M e + 360 * IZR k.
Proof.
  unfold initialGuess.
  rewrite !(Rmult_comm _ deg2rad), turns_rad, sin_period_Z. ring.
Qed.

Lemma newtonStep_period (M e E : R) (k : Z) :
  newtonStep (M + 360 * IZR k) e (E + 360 * IZR k)
  = option_map (fun E' => E' + 360 * IZR k) (newtonStep M e E).
Proof.
  unfold newtonStep. rewrite turns_rad, sin_period_Z, cos_period_Z.
  replace (M + 360 * IZR k
           - (E + 360 * IZR k - 180 / PI * e * sin (deg2rad * E)))
    with (M - (E - 180 / PI * e * sin (deg2rad * E))) by ring.
  destruct (JS.div _ _) as [dE |]; simpl; [f_equal; ring | reflexivity].
Qed.

Lemma solveKeplerEquation_shift (M e : R) (k : Z) :
  solveKeplerEquation (M + 360 * IZR k) e
  = option_map (fun E => E + 360 * IZR k) (solveKeplerEquation M e).
Proof.
  rewrite !solveKeplerEquation_first_step, initialGuess_period.
  apply newtonStep_period.
Qed.

Lemma orbitalPlane_period (a e E : R) (k : Z) :
  orbitalPlane a e (E + 360 * IZR k) = orbitalPlane a e E.
Proof.
  unfold orbitalPlane. rewrite turns_rad, sin_period_Z, cos_period_Z.
  reflexivity.
Qed.

(** The value line 46 leaves differs from M by a whole number of turns. *)
Lemma normalizeMeanAnomaly_turns (M : R) :
  exists k : Z, normalizeMeanAnomaly M = M + 360 * IZR k.
Proof.
  unfold normalizeMeanAnomaly.
  destruct (JS.ltb M (-180) || JS.gtb M 180).
  - exists (- JS.trunc (M / 360))%Z. unfold JS.rem. rewrite opp_IZR. ring.
  - exists 0%Z. simpl. ring.
Qed.

End SolverSymmetries.

(** Adding whole turns to the mean anomaly adds the same turns to the
    eccentric anomaly returned, for every e and every integer k; a failure
    (zero denominator) is kept as well. *)
Theorem solveKeplerEquation_period (M e : R) (k : Z) :
  solveKeplerEquation (M + 360 * IZR k) e
  = option_map (fun E => E + 360 * IZR k) (solveKeplerEquation M e).
Proof. apply solveKeplerEquation_shift. Qed.

(** The solver is odd in the mean anomaly: for -M it returns the opposite
    of what it returns for M. *)
Theorem solveKeplerEquation_odd (M e : R) :
  solveKeplerEquation (- M) e = option_map Ropp (solveKeplerEquation M e).
Proof.
  rewrite !solveKeplerEquation_first_step.
  assert (HE0 : initialGuess (- M) e = - initialGuess M e).
  { unfold initialGuess.
    replace (- M * deg2rad) with (- (M * deg2rad)) by ring.
    rewrite sin_neg. ring. }
  rewrite HE0. unfold newtonStep.
  replace (deg2rad * - initialGuess M e)
    with (- (deg2rad * initialGuess M e)) by ring.
  rewrite sin_neg, cos_neg.
  set (E0 := initialGuess M e).
  set (s := sin (deg2rad * E0)). set (c := cos (deg2rad * E0)).
  unfold JS.div. destruct (Req_dec_T (1 - e * c) 0) as [H0 | Hn]; simpl.
  - reflexivity.
  - f_equal. field. split; [apply PI_neq0 | exact Hn].
Qed.

(** The modulus of line 46 has no effect on the position: the solver and
    the orbital-plane coordinates give the same from the mean anomaly as
    line 45 computed it and from the value line 46 replaces it with,
    whether or not that value is inside [-180, 180]; so
    [computeEclipticCoordinates] returns what it would return with line 46
    removed. *)
Theorem normalizeMeanAnomaly_position_unchanged :
  (forall M a e : R,
     (E <- solveKeplerEquation (normalizeMeanAnomaly M) e ;;
      orbitalPlane a e E)
     = (E <- solveKeplerEquation M e ;; orbitalPlane a e E))
  /\
  (forall (keplerianElementsTable : table) (planetIndex : nat)
          (UNIXMilliTime : R),
     computeEclipticCoordinates keplerianElementsTable planetIndex
       UNIXMilliTime
     = (el <- keplerianElements keplerianElementsTable planetIndex
                UNIXMilliTime ;;
        E <- solveKeplerEquation (el_M el) (el_e el) ;;
        xy <- orbitalPlane (el_a el) (el_e el) E ;;
        Some (eclipticRotation (el_w el) (el_O el) (el_I el)
                (fst xy) (snd xy)))).
Proof.
  assert (Hpos : forall M a e : R,
     (E <- solveKeplerEquation (normalizeMeanAnomaly M) e ;;
      orbitalPlane a e E)
     = (E <- solveKeplerEquation M e ;; orbitalPlane a e E)).
  { intros M a e. destruct (normalizeMeanAnomaly_turns M) as [k ->].
    rewrite solveKeplerEquation_shift.
    destruct (solveKeplerEquation M e) as [E |]; simpl; [| reflexivity].
    apply orbitalPlane_period. }
  split; [exact Hpos |].
  intros tbl p t. unfold computeEclipticCoordinates.
  destruct (keplerianElements tbl p t) as [el |]; simpl; [| reflexivity].
  specialize (Hpos (el_M el) (el_a el) (el_e el)).
  destruct (solveKeplerEquation (normalizeMeanAnomaly (el_M el)) (el_e el))
    as [E |];
    destruct (solveKeplerEquation (el_M el) (el_e el)) as [E' |];
    simpl in *;
    first [rewrite Hpos; reflexivity | rewrite <- Hpos; reflexivity
          | reflexivity].
Qed.

(** ** How long the loop runs *)

Section LoopLength.

Variables M e e1 E1 : R.

Lemma kepler_loop_stop (fuel i : nat) (E2 dif : R) :
  dif <= tolerance ->
  kepler_loop fuel M e e1 E1 i E2 dif = Some (i, E2).
Proof.
  intros Hd. destruct fuel as [| fuel]; simpl; [reflexivity |].
  rewrite (gtb_false _ _ Hd), andb_false_r. reflexivity.
Qed.

Lemma kepler_loop_to_cap (dE : R) :
  JS.div (M - (E1 - e1 * sin (deg2rad * E1))) (1 - e * cos (deg2rad * E1))
  = Some dE ->
  tolerance < Rabs (E1 - (E1 + dE)) ->
  forall (fuel i : nat) (E2 dif : R),
    (i + fuel = 1000)%nat ->
    tolerance < dif ->
    kepler_loop fuel M e e1 E1 i E2 dif
    = Some (1000%nat, if (0 <? fuel)%nat then E1 + dE else E2).
Proof.
  intros Hdiv Hgap. induction fuel as [| fuel IH]; intros i E2 dif Hi Hd.
  - simpl. f_equal. f_equal. lia.
  - rewrite kepler_loop_enter by (assumption || lia).
    rewrite Hdiv. cbn [JS.bind].
    rewrite (IH (S i) (E1 + dE) _ ltac:(lia) Hgap).
    destruct (0 <? fuel)%nat; reflexivity.
Qed.

End LoopLength.

(** The loop makes either one iteration or all 1000, never a number in
    between: one when the first correction moves the initial guess by at
    most the tolerance, 1000 otherwise; the value returned is the first
    correction in both cases. *)
Theorem solveKeplerEquation_run_count (M e : R) :
  solveKeplerEquation_run M e
  = (E <- newtonStep M e (initialGuess M e) ;;
     Some (if Rle_dec (Rabs (initialGuess M e - E)) tolerance
           then 1%nat else 1000%nat, E)).
Proof.
  unfold solveKeplerEquation_run. fold (initialGuess M e).
  set (E0 := initialGuess M e).
  change 1000%nat with (S 999) at 1.
  rewrite kepler_loop_enter; [| lia | rewrite tolerance_value; lra].
  unfold newtonStep.
  destruct (JS.div _ _) as [dE |] eqn:Hdiv; cbn [JS.bind]; [| reflexivity].
  destruct (Rle_dec (Rabs (E0 - (E0 + dE))) tolerance) as [Hle | Hgt].
  - apply kepler_loop_stop. exact Hle.
  - apply Rnot_le_lt in Hgt.
    rewrite (kepler_loop_to_cap M e _ E0 dE Hdiv Hgt 999 1 _ _ eq_refl Hgt).
    reflexivity.
Qed.

(** ** The apsides *)

(** At M = 0 the solver returns exactly 0, and at M = 180 exactly 180,
    for every eccentricity but one: with e = 1 at M = 0, and with e = -1
    at M = 180, the correction is 0/0 and no number is returned. *)
Theorem solveKeplerEquation_apsides (e : R) :
  solveKeplerEquation 0 e = (if Req_dec_T e 1 then None else Some 0)
  /\ solveKeplerEquation 180 e
     = (if Req_dec_T e (-1) then None else Some 180).
Proof.
  rewrite !solveKeplerEquation_first_step. split.
  - assert (HE0 : initialGuess 0 e = 0).
    { unfold initialGuess. rewrite Rmult_0_l, sin_0. ring. }
    rewrite HE0. unfold newtonStep, JS.div.
    rewrite Rmult_0_r, sin_0, cos_0.
    destruct (Req_dec_T (1 - e * 1) 0) as [H0 | Hn];
      destruct (Req_dec_T e 1) as [H1 | H1]; simpl; try reflexivity;
      try (exfalso; lra).
    f_equal. field. split; [apply PI_neq0 | lra].
  - assert (Hrad : deg2rad * 180 = PI)
      by (unfold deg2rad; field).
    assert (HE0 : initialGuess 180 e = 180).
    { unfold initialGuess. rewrite (Rmult_comm 180), Hrad, sin_PI. ring. }
    rewrite HE0. unfold newtonStep, JS.div. rewrite Hrad, sin_PI, cos_PI.
    destruct (Req_dec_T (1 - e * -1) 0) as [H0 | Hn];
      destruct (Req_dec_T e (-1)) as [H1 | H1]; simpl; try reflexivity;
      try (exfalso; lra).
    f_equal. field. split; [apply PI_neq0 | lra].
Qed.

(** ** What the modulus of line 46 guarantees *)

Lemma rem_sign (n d : R) :
  0 < d ->
  (0 <= n -> 0 <= JS.rem n d < d) /\ (n <= 0 -> - d < JS.rem n d <= 0).
Proof.
  intros Hd. unfold JS.rem, JS.trunc.
  assert (Hn : n = n / d * d) by (field; lra).
  destruct (Rlt_dec (n / d) 0) as [Hneg | Hpos].
  - unfold Zceil. rewrite opp_IZR.
    pose proof (Zfloor_bound (- (n / d))) as [Hl Hu].
    set (q := IZR (Zfloor (- (n / d)))) in *.
    split; intros Hs; [exfalso; nra | nra].
  - pose proof (Zfloor_bound (n / d)) as [Hl Hu].
    set (q := IZR (Zfloor (n / d))) in *.
    split; intros Hs; [nra |].
    assert (Hz : n / d = 0) by nra.
    assert (Hq : q = 0).
    { unfold q. rewrite Hz. change 0 with (IZR 0). rewrite ZfloorZ.
      reflexivity. }
    rewrite Hq. nra.
Qed.

(** The value line 46 leaves in M differs from M by a whole number of
    turns of 360 degrees, is strictly between -360 and 360, has the sign
    of M, and is M itself when M is in [-180, 180].  (It is in
    [-180, 180] only when M is there or M modulo 360 falls there.) *)
Theorem normalizeMeanAnomaly_guarantee (M : R) :
  (exists k : Z, normalizeMeanAnomaly M = M + 360 * IZR k)
  /\ -360 < normalizeMeanAnomaly M < 360
  /\ (0 <= M -> 0 <= normalizeMeanAnomaly M)
  /\ (M <= 0 -> normalizeMeanAnomaly M <= 0)
  /\ (-180 <= M <= 180 -> normalizeMeanAnomaly M = M).
Proof.
  split; [apply normalizeMeanAnomaly_turns |].
  split; [apply normalizeMeanAnomaly_range |].
  assert (Hsign : (0 <= M -> 0 <= normalizeMeanAnomaly M)
                  /\ (M <= 0 -> normalizeMeanAnomaly M <= 0)).
  { unfold normalizeMeanAnomaly.
    destruct (JS.ltb M (-180) || JS.gtb M 180).
    - destruct (rem_sign M 360 ltac:(lra)) as [Hp Hn].
      split; intros H; [apply Hp in H | apply Hn in H]; lra.
    - split; intros H; exact H. }
  destruct Hsign as [Hp Hn].
  split; [exact Hp |]. split; [exact Hn |].
  apply normalizeMeanAnomaly_inside.
Qed.

Lemma normalizeMeanAnomaly_guarantee_witness :
  0 <= normalizeMeanAnomaly 400 /\ normalizeMeanAnomaly 90 = 90.
Proof.
  destruct (normalizeMeanAnomaly_guarantee 400) as (_ & _ & Hp & _ & _).
  destruct (normalizeMeanAnomaly_guarantee 90) as (_ & _ & _ & _ & Hin).
  split; [apply Hp; lra | apply Hin; lra].
Defined.

(** ** Tables without periodic terms *)

Ltac plain_row H :=
  erewrite keplerianElements_row in H by reflexivity;
  injection H as <-; cbn [el_M el_L el_W]; unfold JS.pow2; ring.

(** In the 1800-2050 table every row has b = c = s = f = 0, and so have
    the rows Mercury to Mars of the 3000 BC - 3000 AD table: for those
    the mean anomaly line 45 computes is L - W at every instant. *)
Theorem keplerianElements_no_periodic_terms
    (keplerianElementsTable : table) (planetIndex : nat)
    (UNIXMilliTime : R) (el : elements) :
  keplerianElementsTable = keplerianElements2050
  \/ (keplerianElementsTable = keplerianElements3000
      /\ (planetIndex < 4)%nat) ->
  keplerianElements keplerianElementsTable planetIndex UNIXMilliTime
  = Some el ->
  el_M el = el_L el - el_W el.
Proof.
  intros [-> | [-> Hp]] H.
  - do 9 (destruct planetIndex as [| planetIndex]; [plain_row H |]).
    destruct planetIndex; discriminate H.
  - do 4 (destruct planetIndex as [| planetIndex]; [plain_row H |]).
    exfalso. lia.
Qed.

Lemma keplerianElements_no_periodic_terms_witness :
  exists el : elements,
    keplerianElements keplerianElements3000 3 0 = Some el
    /\ el_M el = el_L el - el_W el.
Proof.
  assert (HT : -100 <= centuries 0 <= 100)
    by (unfold centuries, julianDate; lra).
  destruct (bundled_elements keplerianElements3000 3 0
              (or_intror eq_refl) ltac:(lia) HT) as (el & Hel & _).
  exists el. split; [exact Hel |].
  apply (keplerianElements_no_periodic_terms keplerianElements3000 3 0 el).
  - right. split; [reflexivity | lia].
  - exact Hel.
Defined.

(** ** Height above the ecliptic *)

Lemma Rabs_le_sqrt (u v : R) : u * u <= v -> Rabs u <= R_sqrt.sqrt v.
Proof.
  intros H. rewrite <- sqrt_Rsqr_abs. unfold Rsqr.
  apply sqrt_le_1; [nra | pose proof (Rle_0_sqr u); unfold Rsqr in *; lra | exact H].
Qed.

(** The third component of the ecliptic position, the height above the
    ecliptic plane, is at most |sin I| times the distance from the
    origin, whatever the other angles; so it is 0 for an inclination of
    0 degrees. *)
Theorem eclipticRotation_height (w O I x1 y1 : R) :
  Rabs (nth 2 (eclipticRotation w O I x1 y1) 0)
  <= Rabs (sin (deg2rad * I)) * norm [x1; y1; 0]
  /\ nth 2 (eclipticRotation w O 0 x1 y1) 0 = 0.
Proof.
  unfold eclipticRotation. cbn [nth]. split.
  - set (sw := sin (deg2rad * w)). set (cw := cos (deg2rad * w)).
    set (sI := sin (deg2rad * I)).
    replace (sw * sI * x1 + cw * sI * y1) with (sI * (sw * x1 + cw * y1))
      by ring.
    rewrite Rabs_mult. apply Rmult_le_compat_l; [apply Rabs_pos |].
    unfold norm. cbn [fold_right]. apply Rabs_le_sqrt.
    pose proof (sin_cos_sq (deg2rad * w)) as Hsc. fold sw cw in Hsc.
    assert (Hid : (sw * x1 + cw * y1) * (sw * x1 + cw * y1)
                  + (cw * x1 - sw * y1) * (cw * x1 - sw * y1)
                  = (sw * sw + cw * cw) * (x1 * x1 + y1 * y1)) by ring.
    rewrite Hsc in Hid.
    pose proof (Rle_0_sqr (cw * x1 - sw * y1)) as Hsq. unfold Rsqr in Hsq.
    lra.
  - rewrite Rmult_0_r, sin_0. ring.
Qed.

(** ** convertToICRF on arrays of any length *)

(** [convertToICRF] gives a result exactly for arrays of at least three
    components; the result has three components, and components after the
    third are ignored. *)
Theorem convertToICRF_defined_iff (EclipticCoordinates : list R) :
  ((exists v : list R, convertToICRF EclipticCoordinates = Some v)
   <-> (3 <= List.length EclipticCoordinates)%nat)
  /\ (forall v : list R,
        convertToICRF EclipticCoordinates = Some v ->
        List.length v = 3%nat
        /\ convertToICRF (firstn 3 EclipticCoordinates) = Some v).
Proof.
  destruct EclipticCoordinates as [| x [| y [| z rest]]].
  - split; [split; [intros [v H]; discriminate | simpl; lia] |].
    intros v H. discriminate.
  - split; [split; [intros [v H]; discriminate | simpl; lia] |].
    intros v H. discriminate.
  - split; [split; [intros [v H]; discriminate | simpl; lia] |].
    intros v H. discriminate.
  - split.
    + split; [intros _; simpl; lia | intros _; eexists; reflexivity].
    + intros v H. unfold convertToICRF in H. simpl in H.
      injection H as <-. split; reflexivity.
Qed.

Lemma convertToICRF_defined_iff_witness :
  exists v : list R,
    convertToICRF [1; 2; 3; 4] = Some v /\ List.length v = 3%nat
    /\ convertToICRF [1; 2; 3] = Some v.
Proof.
  eexists. split; [reflexivity |].
  exact (proj2 (convertToICRF_defined_iff [1; 2; 3; 4]) _ eq_refl).
Defined.

(** ** How well the returned value solves Kepler's equation *)

Section SineEstimates.

Lemma sin_abs_le (t : R) : Rabs (sin t) <= Rabs t.
Proof.
  assert (Hpos : forall u : R, 0 < u -> - u <= sin u <= u).
  { intros u Hu. split; [| left; apply sin_lt_x; exact Hu].
    destruct (Rle_dec u 3) as [H3 | H3].
    - pose proof PI_gt_3. pose proof (sin_ge_0 u ltac:(lra) ltac:(lra)). lra.
    - pose proof (SIN_bound u). lra. }
  destruct (Rtotal_order t 0) as [Hneg | [-> | Hp]].
  - specialize (Hpos (- t) ltac:(lra)). rewrite sin_neg in Hpos.
    rewrite (Rabs_left t Hneg). apply Rabs_le. lra.
  - rewrite sin_0. lra.
  - specialize (Hpos t Hp). rewrite (Rabs_pos_eq t) by lra.
    apply Rabs_le. lra.
Qed.

Lemma sin_lipschitz (a b : R) : Rabs (sin a - sin b) <= Rabs (a - b).
Proof.
  rewrite form4, !Rabs_mult.
  pose proof (COS_bound ((a + b) / 2)) as [Hc1 Hc2].
  assert (Hc : Rabs (cos ((a + b) / 2)) <= 1) by (apply Rabs_le; lra).
  pose proof (sin_abs_le ((a - b) / 2)) as Hs.
  pose proof (Rabs_pos (cos ((a + b) / 2))) as Hc0.
  pose proof (Rabs_pos (sin ((a - b) / 2))) as Hs0.
  replace (Rabs (a - b)) with (2 * Rabs ((a - b) / 2)).
  2:{ replace (a - b) with (2 * ((a - b) / 2)) at 2 by field.
      rewrite Rabs_mult, (Rabs_pos_eq 2) by lra. reflexivity. }
  rewrite (Rabs_pos_eq 2) by lra. nra.
Qed.

Lemma one_minus_cos (h : R) : 0 <= 1 - cos h <= h * h / 2.
Proof.
  replace h with (2 * (h / 2)) at 1 2 by field. rewrite cos_2a_sin.
  pose proof (Rsqr_le_abs_1 _ _ (sin_abs_le (h / 2))) as Hsq.
  unfold Rsqr in Hsq.
  pose proof (Rle_0_sqr (sin (h / 2))) as H0. unfold Rsqr in H0. lra.
Qed.

Lemma sin_cubic (h : R) : Rabs h <= 1 -> Rabs (sin h - h) <= Rabs h ^ 3 / 6.
Proof.
  assert (Hpos : forall u : R, 0 <= u <= 1 -> u - u ^ 3 / 6 <= sin u <= u).
  { intros u [Hu0 Hu1]. pose proof PI_gt_3.
    destruct (SIN u Hu0 ltac:(lra)) as [Hl _]. rewrite sin_lb_poly in Hl.
    assert (Hup : sin u <= u).
    { destruct (Req_dec u 0) as [-> | Hne]; [rewrite sin_0; lra |].
      left. apply sin_lt_x. lra. }
    split; [| exact Hup].
    assert (0 <= u ^ 5 / 120 - u ^ 7 / 5040).
    { replace (u ^ 5 / 120 - u ^ 7 / 5040)
        with (u ^ 5 * (42 - u * u) / 5040) by field.
      assert (0 <= u ^ 5) by (apply pow_le; exact Hu0).
      apply div_ge_bound; [lra |]. rewrite Rmult_0_l.
      apply Rmult_le_pos; [assumption | nra]. }
    lra. }
  intros Hh. destruct (Rle_dec 0 h) as [Hp | Hn].
  - rewrite (Rabs_pos_eq h) in * by exact Hp.
    specialize (Hpos h ltac:(lra)). apply Rabs_le. lra.
  - apply Rnot_le_lt in Hn. rewrite (Rabs_left h Hn) in *.
    specialize (Hpos (- h) ltac:(lra)). rewrite sin_neg in Hpos.
    apply Rabs_le. lra.
Qed.

(** The sine against its tangent line. *)
Lemma sin_second_order (x h : R) :
  Rabs h <= 1 ->
  Rabs (sin (x + h) - sin x - h * cos x) <= h * h / 2 + Rabs h ^ 3 / 6.
Proof.
  intros Hh. rewrite sin_plus.
  replace (sin x * cos h + cos x * sin h - sin x - h * cos x)
    with (sin x * (cos h - 1) + cos x * (sin h - h)) by ring.
  eapply Rle_trans; [apply Rabs_triang |]. rewrite !Rabs_mult.
  pose proof (SIN_bound x) as [Hs1 Hs2]. pose proof (COS_bound x) as [Hc1 Hc2].
  assert (Hs : Rabs (sin x) <= 1) by (apply Rabs_le; lra).
  assert (Hc : Rabs (cos x) <= 1) by (apply Rabs_le; lra).
  pose proof (one_minus_cos h) as [Ho1 Ho2].
  assert (Hch : Rabs (cos h - 1) <= h * h / 2) by (apply Rabs_le; lra).
  pose proof (sin_cubic h Hh) as Hsh.
  pose proof (Rabs_pos (sin x)). pose proof (Rabs_pos (cos x)).
  pose proof (Rabs_pos (cos h - 1)). pose proof (Rabs_pos (sin h - h)).
  nra.
Qed.

End SineEstimates.

Section OneCorrection.

Lemma correctionBound_le (e : R) :
  0 <= e <= 1 / 2 -> 0 <= correctionBound e <= 1 / 2.
Proof.
  intros He. unfold correctionBound. split.
  - apply div_ge_bound; nra.
  - apply div_le_bound; nra.
Qed.

(** One Newton correction from the initial guess, in radians: [x0] is the
    guess, [h] the correction, [m] the mean anomaly. *)
Lemma newton_residual_rad (m e x0 h : R) :
  0 <= e <= 1 / 2 ->
  x0 = m + e * sin m ->
  h * (1 - e * cos x0) = m - (x0 - e * sin x0) ->
  Rabs (x0 + h - e * sin (x0 + h) - m)
  <= e * (correctionBound e ^ 2 / 2 + correctionBound e ^ 3 / 6).
Proof.
  intros He Hx0 Hh.
  pose proof (correctionBound_le e He) as [HB0 HB1].
  pose proof (COS_bound x0) as [Hc1 Hc2].
  pose proof (SIN_bound m) as [Hs1 Hs2].
  (* the residual at the guess *)
  assert (Hg : Rabs (m - (x0 - e * sin x0)) <= e * e).
  { replace (m - (x0 - e * sin x0)) with (e * (sin x0 - sin m))
      by (rewrite Hx0 at 2; ring).
    rewrite Rabs_mult, (Rabs_pos_eq e) by lra.
    pose proof (sin_lipschitz x0 m) as Hl.
    replace (x0 - m) with (e * sin m) in Hl by (rewrite Hx0; ring).
    rewrite Rabs_mult, (Rabs_pos_eq e) in Hl by lra.
    assert (Rabs (sin m) <= 1) by (apply Rabs_le; lra).
    pose proof (Rabs_pos (sin x0 - sin m)). pose proof (Rabs_pos (sin m)).
    nra. }
  (* the size of the correction *)
  assert (Hec : e * cos x0 <= e * 1) by (apply Rmult_le_compat_l; lra).
  assert (Hhb : Rabs h <= correctionBound e).
  { unfold correctionBound. apply div_ge_bound; [lra |].
    rewrite <- Hh, Rabs_mult, (Rabs_pos_eq (1 - e * cos x0)) in Hg by lra.
    pose proof (Rabs_pos h). nra. }
  pose proof (Rabs_pos h) as Hh0.
  (* the residual after the correction *)
  replace (x0 + h - e * sin (x0 + h) - m)
    with (- e * (sin (x0 + h) - sin x0 - h * cos x0)) by nra.
  rewrite Rabs_mult, Rabs_Ropp, (Rabs_pos_eq e) by lra.
  apply Rmult_le_compat_l; [lra |].
  eapply Rle_trans; [apply sin_second_order; lra |].
  assert (Hsq : h * h <= correctionBound e ^ 2).
  { replace (h * h) with (Rabs h * Rabs h)
      by (unfold Rabs; destruct (Rcase_abs h); ring).
    simpl. nra. }
  assert (Hcu : Rabs h ^ 3 <= correctionBound e ^ 3)
    by (apply pow_incr; lra).
  lra.
Qed.

Lemma solveKeplerEquation_residual (M e : R) :
  0 <= e <= 1 / 2 ->
  exists E : R,
    solveKeplerEquation M e = Some E
    /\ Rabs (keplerResidual M e E) <= residualBound e.
Proof.
  intros He. rewrite solveKeplerEquation_first_step.
  set (E0 := initialGuess M e).
  pose proof (denominator_pos e (deg2rad * E0) ltac:(lra)) as Hden.
  unfold newtonStep. rewrite div_some by lra. cbn [JS.bind].
  eexists. split; [reflexivity |].
  set (dE := (M - (E0 - 180 / PI * e * sin (deg2rad * E0)))
             / (1 - e * cos (deg2rad * E0))).
  pose proof PI_RGT_0 as Hpi.
  assert (Hx0 : deg2rad * E0 = M * deg2rad + e * sin (M * deg2rad)).
  { unfold E0, initialGuess, deg2rad. field. lra. }
  assert (Hh : deg2rad * dE * (1 - e * cos (deg2rad * E0))
               = M * deg2rad - (deg2rad * E0 - e * sin (deg2rad * E0))).
  { unfold dE, deg2rad. field. split; [lra |]. unfold deg2rad in Hden. lra. }
  pose proof (newton_residual_rad _ _ _ _ He Hx0 Hh) as Hres.
  unfold keplerResidual, residualBound.
  replace ((E0 + dE) * PI / 180) with (deg2rad * E0 + deg2rad * dE)
    by (unfold deg2rad; field).
  replace (E0 + dE - 180 / PI * e * sin (deg2rad * E0 + deg2rad * dE) - M)
    with (180 / PI
          * (deg2rad * E0 + deg2rad * dE
             - e * sin (deg2rad * E0 + deg2rad * dE) - M * deg2rad))
    by (unfold deg2rad; field; lra).
  assert (HD : 0 < 180 / PI) by (apply Rdiv_lt_0_compat; lra).
  rewrite Rabs_mult, (Rabs_pos_eq (180 / PI)) by lra.
  rewrite Rmult_assoc. apply Rmult_le_compat_l; [lra | exact Hres].
Qed.

Lemma residualBound_small (e : R) :
  0 <= e <= 0.049 -> residualBound e <= 0.00001.
Proof.
  intros He. unfold residualBound.
  assert (HB : 0 <= correctionBound e <= 0.002525).
  { unfold correctionBound. split.
    - apply div_ge_bound; nra.
    - apply div_le_bound; nra. }
  destruct HB as [HB0 HB1].
  assert (H2 : correctionBound e ^ 2 <= 0.002525 ^ 2)
    by (apply pow_incr; lra).
  assert (H3 : correctionBound e ^ 3 <= 0.002525 ^ 3)
    by (apply pow_incr; lra).
  assert (H20 : 0 <= correctionBound e ^ 2) by (apply pow_le; lra).
  assert (H30 : 0 <= correctionBound e ^ 3) by (apply pow_le; lra).
  pose proof PI_gt_3 as Hpi.
  assert (HD : 0 < 180 / PI <= 60).
  { split; [apply Rdiv_lt_0_compat; lra | apply div_le_bound; lra]. }
  set (t := correctionBound e ^ 2 / 2 + correctionBound e ^ 3 / 6).
  assert (Ht : 0 <= t <= 0.0000032) by (unfold t; lra).
  assert (Het : 0 <= e * t <= 0.049 * 0.0000032) by nra.
  rewrite Rmult_assoc. nra.
Qed.

End OneCorrection.

(** For every M and every e in [0, 1/2], the value returned, one Newton
    correction of the initial guess, leaves of Kepler's equation at most
    (180/pi) e (h^2/2 + h^3/6) degrees, where h = e^2 / (1 - e) bounds
    the correction in radians. *)
Theorem solveKeplerEquation_residual_bound (M e : R) :
  0 <= e <= 1 / 2 ->
  exists E : R,
    solveKeplerEquation M e = Some E
    /\ Rabs (E - 180 / PI * e * sin (E * PI / 180) - M)
       <= 180 / PI * e
          * ((e * e / (1 - e)) ^ 2 / 2 + (e * e / (1 - e)) ^ 3 / 6).
Proof. exact (solveKeplerEquation_residual M e). Qed.

Lemma solveKeplerEquation_residual_bound_witness :
  exists E : R,
    solveKeplerEquation 45 (1 / 4) = Some E
    /\ Rabs (E - 180 / PI * (1 / 4) * sin (E * PI / 180) - 45)
       <= 180 / PI * (1 / 4)
          * ((1 / 4 * (1 / 4) / (1 - 1 / 4)) ^ 2 / 2
             + (1 / 4 * (1 / 4) / (1 - 1 / 4)) ^ 3 / 6).
Proof. apply (solveKeplerEquation_residual_bound 45 (1 / 4)). lra. Defined.

(** For every M and every e in [0, 0.049], the value returned satisfies
    Kepler's equation within the tolerance of 0.00001 degrees, although
    only one correction is ever made. *)
Theorem solveKeplerEquation_small_eccentricity (M e : R) :
  0 <= e <= 0.049 ->
  exists E : R,
    solveKeplerEquation M e = Some E
    /\ Rabs (E - 180 / PI * e * sin (E * PI / 180) - M) <= 0.00001.
Proof.
  intros He.
  destruct (solveKeplerEquation_residual M e ltac:(lra)) as (E & HE & Hres).
  exists E. split; [exact HE |].
  pose proof (residualBound_small e He). unfold keplerResidual in Hres. lra.
Qed.

Lemma solveKeplerEquation_small_eccentricity_witness :
  exists E : R,
    solveKeplerEquation 100 0.01671123 = Some E
    /\ Rabs (E - 180 / PI * 0.01671123 * sin (E * PI / 180) - 100)
       <= 0.00001.
Proof. apply (solveKeplerEquation_small_eccentricity 100 0.01671123). lra. Defined.

Ltac small_row :=
  eexists; split;
  [ erewrite keplerianElements_row by reflexivity; reflexivity
  | cbn [el_e]; lra ].

Lemma small_eccentricity_rows (planetIndex : nat) (UNIXMilliTime : R) :
  In planetIndex [1; 2; 4; 6; 7]%nat ->
  -2 <= centuries UNIXMilliTime <= 1 / 2 ->
  exists el : elements,
    keplerianElements keplerianElements2050 planetIndex UNIXMilliTime
    = Some el
    /\ 0 <= el_e el <= 0.049.
Proof.
  intros Hin HT. simpl in Hin.
  destruct Hin as [<- | [<- | [<- | [<- | [<- | []]]]]]; small_row.
Qed.

(** In the 1800-2050 table, for Venus, the Earth-Moon barycenter, Jupiter,
    Uranus and Neptune (rows 1, 2, 4, 6, 7) and every instant from 1800
    to 2050 (T from -2 to 1/2), the eccentricity is at most 0.049 and the
    eccentric anomaly [computeEclipticCoordinates] obtains from the solver
    satisfies Kepler's equation within 0.00001 degrees. *)
Theorem computeEclipticCoordinates_kepler_accuracy
    (planetIndex : nat) (UNIXMilliTime : R) :
  In planetIndex [1; 2; 4; 6; 7]%nat ->
  -2 <= centuries UNIXMilliTime <= 1 / 2 ->
  exists (el : elements) (E : R),
    keplerianElements keplerianElements2050 planetIndex UNIXMilliTime
    = Some el
    /\ 0 <= el_e el <= 0.049
    /\ solveKeplerEquation (normalizeMeanAnomaly (el_M el)) (el_e el)
       = Some E
    /\ Rabs (keplerResidual (normalizeMeanAnomaly (el_M el)) (el_e el) E)
       <= 0.00001.
Proof.
  intros Hin HT.
  destruct (small_eccentricity_rows _ _ Hin HT) as (el & Hel & He).
  destruct (solveKeplerEquation_residual
              (normalizeMeanAnomaly (el_M el)) (el_e el) ltac:(lra))
    as (E & HE & Hres).
  exists el, E. split; [exact Hel |]. split; [exact He |].
  split; [exact HE |].
  pose proof (residualBound_small (el_e el) He). lra.
Qed.

Lemma computeEclipticCoordinates_kepler_accuracy_witness :
  exists (el : elements) (E : R),
    keplerianElements keplerianElements2050 4 946728000000 = Some el
    /\ 0 <= el_e el <= 0.049
    /\ solveKeplerEquation (normalizeMeanAnomaly (el_M el)) (el_e el)
       = Some E
    /\ Rabs (keplerResidual (normalizeMeanAnomaly (el_M el)) (el_e el) E)
       <= 0.00001.
Proof.
  apply (computeEclipticCoordinates_kepler_accuracy 4 946728000000).
  - simpl. tauto.
  - unfold centuries, julianDate. lra.
Defined.
